(** * The i18n module of the landing page: language resolution, bundle
      loading, translation of marked elements and language switching.

    The module is a script that runs in a browser.  Its own functions are
    embedded one by one, under their own names; the browser objects they
    call (strings, decoded JSON values, [localStorage], [navigator],
    [fetch], the DOM) are modelled as far as the functions use them.

    The page script that runs beside it is embedded as far as it is a
    matter of the document and of [localStorage]: the theme toggle and
    the typing effect of the subtitle.  So is the text that the
    countdown page shows and copies. *)

From Stdlib Require Import Ascii String DecimalString.
From stdpp Require Import gmap strings list.

Set Warnings "-register-all".
Set Default Proof Using "Type".

(** ** Strings *)

(** [s.split(sep)] for a separator of one character: never empty. *)
Fixpoint split (sep : ascii) (s : string) : list string :=
  match s with
  | EmptyString => [EmptyString]
  | String c s' =>
      if Ascii.eqb c sep then EmptyString :: split sep s'
      else match split sep s' with
           | x :: xs => String c x :: xs
           | [] => [String c EmptyString]
           end
  end.

(** [s.startsWith(p)] *)
Definition startsWith (s p : string) : bool := String.prefix p s.

(** [arr.includes(x)] on an array of strings *)
Definition includes (arr : list string) (x : string) : bool :=
  existsb (String.eqb x) arr.

(** The decimal digits of a natural number: array indices, HTTP statuses. *)
Definition nat_to_string (n : nat) : string :=
  NilZero.string_of_uint (Nat.to_uint n).

(** ** Configuration (the constants at the top of the module) *)

Definition I18N_STORAGE_KEY : string := "lang".
Definition DEFAULT_LANG : string := "en".
Definition SUPPORTED_LANGS : list string := ["en"; "pt-BR"; "de"].

(** ** Language resolution *)

(** [navigator.languages] may be missing; [navigator.language] is a string. *)
Record Navigator := {
  languages : option (list string);
  language : string;
}.

(** [localStorage]: a string-to-string store.  [getItem] gives [null]
    (here [None]) for a missing key.  The store is taken to be available:
    reading and writing it do not throw. *)
Definition getItem (st : gmap string string) (key : string) : option string :=
  st !! key.

Definition setItem (st : gmap string string) (key value : string)
  : gmap string string :=
  <[key := value]> st.

(** Truthiness of a string: every string but the empty one. *)
Definition truthy_string (s : string) : bool :=
  negb (String.eqb s EmptyString).

Section Resolver.
(** The resolver reads the supported list and the default code only
    through their two names, so it is written once over them and then
    instantiated with the constants of the module. *)
Variable supported : list string.
Variable defaultLang : string.

(** The callback of [SUPPORTED_LANGS.find] in [detectBrowserLang]. *)
Definition prefixMatches (prefix candidate : string) : bool :=
  String.eqb candidate prefix || startsWith candidate (prefix +:+ "-").

(** The body of the [for ... of] loop; [Some] is an early [return]. *)
Definition matchBrowserLang (browserLang : string) : option string :=
  if includes supported browserLang then Some browserLang
  else
    let prefix := hd EmptyString (split "-" browserLang) in
    match find (prefixMatches prefix) supported with
    | Some m => if truthy_string m then Some m else None
    | None => None
    end.

Fixpoint scanBrowserLangs (langs : list string) : option string :=
  match langs with
  | [] => None
  | browserLang :: rest =>
      match matchBrowserLang browserLang with
      | Some m => Some m
      | None => scanBrowserLangs rest
      end
  end.

(** [navigator.languages ?? [navigator.language]] *)
Definition browserLangs (nav : Navigator) : list string :=
  match languages nav with
  | Some langs => langs
  | None => [language nav]
  end.

Definition detectBrowserLangOver (nav : Navigator) : option string :=
  scanBrowserLangs (browserLangs nav).

(** [stored && SUPPORTED_LANGS.includes(stored)] *)
Definition storedIsSupported (stored : option string) : bool :=
  match stored with
  | Some s => truthy_string s && includes supported s
  | None => false
  end.

Definition resolveLanguageOver (storage : gmap string string)
    (nav : Navigator) : string :=
  let stored := getItem storage I18N_STORAGE_KEY in
  match (if storedIsSupported stored then stored else None) with
  | Some s => s
  | None =>
      match detectBrowserLangOver nav with
      | Some detected =>
          if truthy_string detected then detected else defaultLang
      | None => defaultLang
      end
  end.
End Resolver.

Definition detectBrowserLang (nav : Navigator) : option string :=
  detectBrowserLangOver SUPPORTED_LANGS nav.

Definition resolveLanguage (storage : gmap string string) (nav : Navigator)
  : string :=
  resolveLanguageOver SUPPORTED_LANGS DEFAULT_LANG storage nav.

(** ** Generic shapes: child nodes, completions, loops *)

(** A child node is a text node or an element. *)
Inductive Child (E : Type) :=
| Text (data : string)
| Sub (e : E).
Arguments Text {E} data.
Arguments Sub {E} e.

(** A call either returns a value or throws an error. *)
Inductive JsError :=
| TypeError (message : string)
| SyntaxError (message : string)
| Error (message : string).

Inductive Completion (A : Type) :=
| Return (a : A)
| Throw (err : JsError).
Arguments Return {A} a.
Arguments Throw {A} err.

(** [handles.forEach(callback)] over a state that the callback changes.
    A throw of the callback ends the loop; the loops of the module are
    shown below never to throw, so the state at a throw is not kept. *)
Fixpoint forEach {A S : Type} (callback : S -> A -> Completion S)
    (handles : list A) (s : S) : Completion S :=
  match handles with
  | [] => Return s
  | h :: rest =>
      match callback s h with
      | Return s' => forEach callback rest s'
      | Throw err => Throw err
      end
  end.

(** ** Decoded JSON values

    A bundle is whatever [response.json()] decodes.  JSON numbers are
    IEEE doubles; the module never computes with them, so they are kept
    abstract: all it needs is whether one is zero (truthiness), its
    rendering as a string, and the number that stands for a length. *)

Class JsNumber := {
  Number : Type;
  Number_of_nat : nat -> Number;
  Number_is_zero : Number -> bool;
  Number_toString : Number -> string;
}.

(** The integers, as numbers for the examples: none of them has a number
    in a bundle. *)
Definition integerNumbers : JsNumber :=
  {| Number := Z;
     Number_of_nat := Z.of_nat;
     Number_is_zero := Z.eqb 0;
     Number_toString := fun z => NilZero.string_of_int (Z.to_int z) |}.

Section I18n.
Context `{JsNumber}.

Inductive JsValue :=
| JUndefined
| JNull
| JBool (b : bool)
| JNum (n : Number)
| JStr (s : string)
| JArr (items : list JsValue)
| JObj (fields : gmap string JsValue).

(** [v == null]: [null] or [undefined]. *)
Definition nullish (v : JsValue) : bool :=
  match v with
  | JUndefined | JNull => true
  | _ => false
  end.

(** Truthiness, as tested by [if (v)]. *)
Definition truthy (v : JsValue) : bool :=
  match v with
  | JUndefined | JNull => false
  | JBool b => b
  | JNum n => negb (Number_is_zero n)
  | JStr s => truthy_string s
  | JArr _ | JObj _ => true
  end.

(** [sep.join(parts)] *)
Fixpoint join (sep : string) (parts : list string) : string :=
  match parts with
  | [] => EmptyString
  | [x] => x
  | x :: rest => x +:+ sep +:+ join sep rest
  end.

(** The conversion to a string that the DOM setters apply to their
    argument.  An array joins its items with commas, a [null] item giving
    the empty string; a plain object gives ["[object Object]"]. *)
Fixpoint ToString (v : JsValue) : string :=
  match v with
  | JUndefined => "undefined"
  | JNull => "null"
  | JBool true => "true"
  | JBool false => "false"
  | JNum n => Number_toString n
  | JStr s => s
  | JArr items =>
      join ","
        (map (fun item => if nullish item then EmptyString else ToString item)
             items)
  | JObj _ => "[object Object]"
  end.

(** The index that a property key names in an array or string of length
    [len]: the [i < len] whose decimal digits are the key. *)
Definition array_index (key : string) (len : nat) : option nat :=
  find (fun i => String.eqb (nat_to_string i) key) (seq 0 len).

(** [v[key]] for a value that is neither [null] nor [undefined]: the own
    properties of a decoded object, and the items and [length] of an array
    or a string.  Members inherited from the built-in prototypes are
    outside the model. *)
Definition get_property (v : JsValue) (key : string) : JsValue :=
  match v with
  | JObj fields => default JUndefined (fields !! key)
  | JArr items =>
      if String.eqb key "length" then JNum (Number_of_nat (length items))
      else match array_index key (length items) with
           | Some i => default JUndefined (items !! i)
           | None => JUndefined
           end
  | JStr s =>
      if String.eqb key "length" then JNum (Number_of_nat (String.length s))
      else match array_index key (String.length s) with
           | Some i =>
               match String.get i s with
               | Some c => JStr (String c EmptyString)
               | None => JUndefined
               end
           | None => JUndefined
           end
  | _ => JUndefined
  end.

(** [current?.[key]] *)
Definition optional_get (current : JsValue) (key : string) : JsValue :=
  if nullish current then JUndefined else get_property current key.

(** [keyPath.split('.').reduce((current, key) => current?.[key], obj)] *)
Definition getNestedValue (obj : JsValue) (keyPath : string) : JsValue :=
  fold_left optional_get (split "." keyPath) obj.

(** ** The document

    An element has a tag, attributes, a class list (the tokens of its
    [class] attribute) and child nodes, each a text node or an element.
    [document.title] is kept as a property of the document. *)

Inductive Element :=
| mkElement (tag : string) (attrs : gmap string string)
    (classes : list string) (children : list (Child Element)).

Definition tagName (e : Element) : string :=
  match e with mkElement tag _ _ _ => tag end.
Definition attributes (e : Element) : gmap string string :=
  match e with mkElement _ attrs _ _ => attrs end.
Definition classList (e : Element) : list string :=
  match e with mkElement _ _ classes _ => classes end.
Definition childNodes (e : Element) : list (Child Element) :=
  match e with mkElement _ _ _ children => children end.

Record Document := {
  documentElement : Element;
  title : string;
}.

(** [el.getAttribute(name)]: [null] (here [None]) when absent. *)
Definition getAttribute (name : string) (e : Element) : option string :=
  attributes e !! name.

(** [el.setAttribute(name, value)] *)
Definition setAttribute (name value : string) (e : Element) : Element :=
  mkElement (tagName e) (<[name := value]> (attributes e)) (classList e)
    (childNodes e).

(** [el.textContent = s]: every child is removed, and a single text node
    is put in their place unless [s] is empty. *)
Definition textNodes (s : string) : list (Child Element) :=
  if String.eqb s EmptyString then [] else [Text s].

Definition set_textContent (s : string) (e : Element) : Element :=
  mkElement (tagName e) (attributes e) (classList e) (textNodes s).

(** [el.classList.toggle(token, force)] *)
Definition classList_toggle (token : string) (force : bool) (e : Element)
  : Element :=
  let present := bool_decide (token ∈ classList e) in
  let classes :=
    if present then
      if force then classList e
      else filter (fun c => c ≠ token) (classList e)
    else
      if force then classList e ++ [token] else classList e in
  mkElement (tagName e) (attributes e) classes (childNodes e).

(** *** Element handles

    A script holds elements by reference.  Here an element of the document
    is named by its path from the root: the indices of the child nodes to
    follow.  An element that an assignment to an ancestor's [textContent]
    has taken out of the document has no path any more. *)

Fixpoint element_at (e : Element) (p : list nat) : option Element :=
  match p with
  | [] => Some e
  | i :: p' =>
      match childNodes e !! i with
      | Some (Sub k) => element_at k p'
      | _ => None
      end
  end.

Fixpoint update_at (f : Element -> Element) (e : Element) (p : list nat)
  : Element :=
  match p with
  | [] => f e
  | i :: p' =>
      match childNodes e !! i with
      | Some (Sub k) =>
          mkElement (tagName e) (attributes e) (classList e)
            (<[i := Sub (update_at f k p')]> (childNodes e))
      | _ => e
      end
  end.

(** The handles of the elements below a list of child nodes, the first of
    which has index [i], given those inside each child element. *)
Definition childPaths (pathsOf : Element -> list (list nat))
  : nat -> list (Child Element) -> list (list nat) :=
  fix below (i : nat) (ks : list (Child Element)) : list (list nat) :=
    match ks with
    | [] => []
    | Text _ :: ks' => below (S i) ks'
    | Sub k :: ks' => map (cons i) (pathsOf k) ++ below (S i) ks'
    end.

(** [document.querySelectorAll(sel)]: the elements that match, in
    document order, as a static list. *)
Fixpoint querySelectorAll (sel : Element -> bool) (e : Element)
  : list (list nat) :=
  (if sel e then [[]] else []) ++
  match e with
  | mkElement _ _ _ children => childPaths (querySelectorAll sel) 0 children
  end.

(** [document.querySelector(sel)]: the first match or [null]. *)
Definition querySelector (sel : Element -> bool) (e : Element)
  : option (list nat) :=
  head (querySelectorAll sel e).

(** The selectors of the module. *)
Definition has_attribute (name : string) (e : Element) : bool :=
  bool_decide (is_Some (getAttribute name e)).

Definition has_class (token : string) (e : Element) : bool :=
  bool_decide (token ∈ classList e).

Definition is_meta_description (e : Element) : bool :=
  String.eqb (tagName e) "meta"
  && bool_decide (getAttribute "name" e = Some "description").

(** Running a callback on the element that a handle names.  The callback
    also runs on an element that has left the document, where it reads the
    same attributes and writes to a node that is not shown: the document
    stays as it is. *)
Definition on_element (callback : Element -> Completion Element)
    (root : Element) (p : list nat) : Completion Element :=
  match element_at root p with
  | Some el =>
      match callback el with
      | Return el' => Return (update_at (fun _ => el') root p)
      | Throw err => Throw err
      end
  | None => Return root
  end.

(** ** Applying a bundle *)

(** [getNestedValue(translations, el.getAttribute(name))]: a missing
    attribute gives [null], on which [split] throws. *)
Definition translationFor (translations : JsValue) (name : string)
    (el : Element) : Completion JsValue :=
  match getAttribute name el with
  | Some key => Return (getNestedValue translations key)
  | None => Throw (TypeError "Cannot read properties of null (reading 'split')")
  end.

(** The callback of the loop over [[data-i18n]]. *)
Definition translateText (translations : JsValue) (el : Element)
  : Completion Element :=
  match translationFor translations "data-i18n" el with
  | Return value =>
      if negb (nullish value)
      then Return (set_textContent (ToString value) el)
      else Return el
  | Throw err => Throw err
  end.

(** The callback of the loop over [[data-i18n-aria-label]]. *)
Definition translateAriaLabel (translations : JsValue) (el : Element)
  : Completion Element :=
  match translationFor translations "data-i18n-aria-label" el with
  | Return value =>
      if negb (nullish value)
      then Return (setAttribute "aria-label" (ToString value) el)
      else Return el
  | Throw err => Throw err
  end.

(** [document.querySelector('meta[name="description"]')
      ?.setAttribute('content', metaDesc)] *)
Definition setMetaDescription (content : string) (root : Element) : Element :=
  match querySelector is_meta_description root with
  | Some p => update_at (setAttribute "content" content) root p
  | None => root
  end.

Definition applyTranslations (translations : JsValue) (doc : Document)
  : Completion Document :=
  let root := documentElement doc in
  match forEach (on_element (translateText translations))
          (querySelectorAll (has_attribute "data-i18n") root) root with
  | Throw err => Throw err
  | Return root1 =>
      match forEach (on_element (translateAriaLabel translations))
              (querySelectorAll (has_attribute "data-i18n-aria-label") root1)
              root1 with
      | Throw err => Throw err
      | Return root2 =>
          let metaTitle := getNestedValue translations "meta.title" in
          let metaDesc := getNestedValue translations "meta.description" in
          let title' :=
            if truthy metaTitle then ToString metaTitle else title doc in
          let root3 :=
            if truthy metaDesc
            then setMetaDescription (ToString metaDesc) root2
            else root2 in
          Return {| documentElement := root3; title := title' |}
      end
  end.

(** ** The picker *)

(** The callback of the loop over [.lang-option]. *)
Definition markOption (activeLang : string) (btn : Element)
  : Completion Element :=
  let lang := getAttribute "data-lang" btn in
  let active := bool_decide (lang = Some activeLang) in
  Return (setAttribute "aria-current" (if active then "true" else "false")
            (classList_toggle "active" active btn)).

Definition updatePicker (activeLang : string) (doc : Document)
  : Completion Document :=
  let root := documentElement doc in
  match forEach (on_element (markOption activeLang))
          (querySelectorAll (has_class "lang-option") root) root with
  | Throw err => Throw err
  | Return root1 =>
      let htmlLang :=
        if String.eqb activeLang "pt-BR" then "pt-BR" else activeLang in
      Return {| documentElement := setAttribute "lang" htmlLang root1;
                title := title doc |}
  end.

(** ** The page and the network

    [network] gives the outcome of a request from the number of requests
    made before it and its URL, so that the same URL may fail once and
    succeed later.  [requests] records every URL fetched, oldest first;
    [console] records the warnings. *)

Record Response := {
  ok : bool;
  status : nat;
  body : option JsValue;   (* [None]: the body does not decode as JSON *)
}.

Inductive FetchResult :=
| NetworkError
| Responds (r : Response).

Record World := {
  localStorage : gmap string string;
  navigator : Navigator;
  translationCache : gmap string JsValue;
  document : Document;
  network : nat -> string -> FetchResult;
  requests : list string;
  console : list (string * JsError);
}.

Definition with_localStorage (st : gmap string string) (w : World) : World :=
  {| localStorage := st; navigator := navigator w;
     translationCache := translationCache w; document := document w;
     network := network w; requests := requests w; console := console w |}.

Definition with_translationCache (c : gmap string JsValue) (w : World)
  : World :=
  {| localStorage := localStorage w; navigator := navigator w;
     translationCache := c; document := document w;
     network := network w; requests := requests w; console := console w |}.

Definition with_document (d : Document) (w : World) : World :=
  {| localStorage := localStorage w; navigator := navigator w;
     translationCache := translationCache w; document := d;
     network := network w; requests := requests w; console := console w |}.

Definition with_requests (r : list string) (w : World) : World :=
  {| localStorage := localStorage w; navigator := navigator w;
     translationCache := translationCache w; document := document w;
     network := network w; requests := r; console := console w |}.

Definition with_console (c : list (string * JsError)) (w : World) : World :=
  {| localStorage := localStorage w; navigator := navigator w;
     translationCache := translationCache w; document := document w;
     network := network w; requests := requests w; console := c |}.

(** [await fetch(url)]: a network error rejects. *)
Definition fetch (url : string) (w : World) : Completion Response * World :=
  let w' := with_requests (requests w ++ [url]) w in
  match network w (length (requests w)) url with
  | NetworkError => (Throw (TypeError "Failed to fetch"), w')
  | Responds r => (Return r, w')
  end.

(** [await response.json()] *)
Definition json (r : Response) : Completion JsValue :=
  match body r with
  | Some data => Return data
  | None => Throw (SyntaxError "Unexpected token in JSON")
  end.

(** [console.warn(message, err)] *)
Definition console_warn (message : string) (err : JsError) (w : World)
  : World :=
  with_console (console w ++ [(message, err)]) w.

(** ** Loading a bundle *)

(** [`i18n/${lang}.json`] *)
Definition bundleUrl (lang : string) : string :=
  "i18n/" +:+ lang +:+ ".json".

(** [`[i18n] Failed to load ${lang}, falling back to ${DEFAULT_LANG}`] *)
Definition failureMessage (lang : string) : string :=
  "[i18n] Failed to load " +:+ lang +:+ ", falling back to " +:+ DEFAULT_LANG.

(** The [try] block of [loadTranslation]. *)
Definition loadTranslation_try (lang : string) (w : World)
  : Completion JsValue * World :=
  match fetch (bundleUrl lang) w with
  | (Throw err, w1) => (Throw err, w1)
  | (Return response, w1) =>
      if negb (ok response)
      then (Throw (Error ("HTTP " +:+ nat_to_string (status response))), w1)
      else
        match json response with
        | Throw err => (Throw err, w1)
        | Return data =>
            (Return data,
             with_translationCache (<[lang := data]> (translationCache w1)) w1)
        end
  end.

(** [translationCache[lang]], [undefined] when there is no entry. *)
Definition cached (lang : string) (w : World) : JsValue :=
  default JUndefined (translationCache w !! lang).

(** [loadTranslation] calls itself in its [catch] block, so the embedding
    counts calls: [fuel] bounds the depth of the calls, and [None] means
    that the bound was reached. *)
Fixpoint loadTranslation (fuel : nat) (lang : string) (w : World)
  : option (Completion JsValue * World) :=
  match fuel with
  | O => None
  | S fuel' =>
      if truthy (cached lang w) then Some (Return (cached lang w), w)
      else
        match loadTranslation_try lang w with
        | (Return data, w1) => Some (Return data, w1)
        | (Throw err, w1) =>
            let w2 := console_warn (failureMessage lang) err w1 in
            if negb (String.eqb lang DEFAULT_LANG)
            then loadTranslation fuel' DEFAULT_LANG w2
            else Some (Return (JObj ∅), w2)
        end
  end.

(** ** Switching language *)

Definition switchLanguage (fuel : nat) (lang : string) (w : World)
  : option (Completion unit * World) :=
  if negb (includes SUPPORTED_LANGS lang) then Some (Return tt, w)
  else
    let w1 :=
      with_localStorage (setItem (localStorage w) I18N_STORAGE_KEY lang) w in
    match loadTranslation fuel lang w1 with
    | None => None
    | Some (Throw err, w2) => Some (Throw err, w2)
    | Some (Return translations, w2) =>
        match applyTranslations translations (document w2) with
        | Throw err => Some (Throw err, w2)
        | Return doc1 =>
            match updatePicker lang doc1 with
            | Throw err => Some (Throw err, with_document doc1 w2)
            | Return doc2 => Some (Return tt, with_document doc2 w2)
            end
        end
    end.

(** The state after the request for [lang] has gone out. *)
Definition requested (lang : string) (w : World) : World :=
  with_requests (requests w ++ [bundleUrl lang]) w.

(** ** The loops over the document, read as maps over the tree

    Each [forEach] of the module walks the matching elements in document
    order.  What such a loop makes of a whole subtree can be written by
    recursion on the subtree; the properties below relate the two. *)

Definition childMap (f : Element -> Element) (c : Child Element)
  : Child Element :=
  match c with
  | Text s => Text s
  | Sub k => Sub (f k)
  end.

(** The value that the marker attribute [name] of [e] resolves to;
    [undefined] without the marker. *)
Definition markerValue (translations : JsValue) (name : string) (e : Element)
  : JsValue :=
  match getAttribute name e with
  | Some key => getNestedValue translations key
  | None => JUndefined
  end.

(** The loop over [[data-i18n]]: a marked element whose key resolves gets
    the text, and what was below it is gone. *)
Fixpoint translateTextTree (translations : JsValue) (e : Element) : Element :=
  match e with
  | mkElement tag attrs classes children =>
      let value :=
        markerValue translations "data-i18n"
          (mkElement tag attrs classes children) in
      if negb (nullish value)
      then mkElement tag attrs classes (textNodes (ToString value))
      else mkElement tag attrs classes
             (map (childMap (translateTextTree translations)) children)
  end.

(** A loop whose callback [g] keeps the child nodes: [g] is applied to
    every element that matches [sel]. *)
Fixpoint mapTree (sel : Element -> bool) (g : Element -> Element)
    (e : Element) : Element :=
  match e with
  | mkElement tag attrs classes children =>
      let e' :=
        if sel (mkElement tag attrs classes children)
        then g (mkElement tag attrs classes children)
        else mkElement tag attrs classes children in
      mkElement (tagName e') (attributes e') (classList e')
        (map (childMap (mapTree sel g)) children)
  end.

(** What the callbacks over [[data-i18n-aria-label]] and [.lang-option]
    return. *)
Definition ariaLabelled (translations : JsValue) (el : Element) : Element :=
  let value := markerValue translations "data-i18n-aria-label" el in
  if negb (nullish value)
  then setAttribute "aria-label" (ToString value) el
  else el.

Definition optionMarked (activeLang : string) (btn : Element) : Element :=
  let active := bool_decide (getAttribute "data-lang" btn = Some activeLang) in
  setAttribute "aria-current" (if active then "true" else "false")
    (classList_toggle "active" active btn).

(** A callback that rewrites the tag, the attributes or the classes of an
    element from those alone, and keeps its child nodes; a selector that
    looks at nothing else. *)
Definition attributeStep (f : Element -> Element) : Prop :=
  forall tag attrs classes k1 k2,
    f (mkElement tag attrs classes k2)
    = mkElement (tagName (f (mkElement tag attrs classes k1)))
        (attributes (f (mkElement tag attrs classes k1)))
        (classList (f (mkElement tag attrs classes k1))) k2.

Definition attributeSelector (sel : Element -> bool) : Prop :=
  forall tag attrs classes k1 k2,
    sel (mkElement tag attrs classes k1) = sel (mkElement tag attrs classes k2).

(** [f] leaves the attribute [name] as it is. *)
Definition keepsAttribute (name : string) (f : Element -> Element) : Prop :=
  forall e, getAttribute name (f e) = getAttribute name e.

Definition guarded (sel : Element -> bool) (g : Element -> Element)
    (e : Element) : Element :=
  if sel e then g e else e.

(** A property of a child node that is an element. *)
Definition below_all (P : Element -> Prop) (c : Child Element) : Prop :=
  match c with
  | Text _ => True
  | Sub k => P k
  end.








(** The document that [applyTranslations] and [updatePicker] arrive at. *)
Definition appliedRoot (translations : JsValue) (root : Element) : Element :=
  let root2 :=
    mapTree (has_attribute "data-i18n-aria-label") (ariaLabelled translations)
      (translateTextTree translations root) in
  let metaDesc := getNestedValue translations "meta.description" in
  if truthy metaDesc then setMetaDescription (ToString metaDesc) root2
  else root2.

Definition appliedDocument (translations : JsValue) (doc : Document)
  : Document :=
  let metaTitle := getNestedValue translations "meta.title" in
  {| documentElement := appliedRoot translations (documentElement doc);
     title := if truthy metaTitle then ToString metaTitle else title doc |}.

Definition pickedDocument (activeLang : string) (doc : Document) : Document :=
  {| documentElement :=
       setAttribute "lang"
         (if String.eqb activeLang "pt-BR" then "pt-BR" else activeLang)
         (mapTree (has_class "lang-option") (optionMarked activeLang)
            (documentElement doc));
     title := title doc |}.

(** ** What a request for a bundle can meet

    The request made next for [lang] fails when the transport fails, when
    the status is not a success, or when the body does not decode. *)

Definition fetchFails (lang : string) (w : World) : Prop :=
  match network w (length (requests w)) (bundleUrl lang) with
  | NetworkError => True
  | Responds r => ok r = false \/ body r = None
  end.

Definition fetchSucceeds (lang : string) (w : World) (data : JsValue) : Prop :=
  exists r, network w (length (requests w)) (bundleUrl lang) = Responds r /\
    ok r = true /\ body r = Some data.

(** ** A page and a server, for the examples *)

(** A server of static files: a file that is there is served with status
    200, any other URL gets a 404 without a JSON body. *)
Definition staticServer (files : gmap string JsValue) (served : nat)
    (url : string) : FetchResult :=
  match files !! url with
  | Some data => Responds {| ok := true; status := 200; body := Some data |}
  | None => Responds {| ok := false; status := 404; body := None |}
  end.

(** [{hero: {subtitle: ...}}] *)
Definition heroBundle (subtitle : string) : JsValue :=
  JObj {[ "hero" := JObj {[ "subtitle" := JStr subtitle ]} ]}.

(** A page with one marked paragraph and a picker control for each
    supported language, one of them active. *)
Definition heroParagraph (text : string) : Element :=
  mkElement "p" {[ "data-i18n" := "hero.subtitle" ]} [] (textNodes text).

Definition pickerOption (lang : string) (active : bool) : Element :=
  mkElement "button"
    {[ "data-lang" := lang;
       "aria-current" := if active then "true" else "false" ]}
    (if active then ["lang-option"; "active"] else ["lang-option"]) [].

Definition heroPage (htmlLang text : string) (activeLang : string) : Document :=
  {| documentElement :=
       mkElement "html" {[ "lang" := htmlLang ]} []
         [Sub (mkElement "body" ∅ []
                 (Sub (heroParagraph text)
                  :: map (fun lang =>
                            Sub (pickerOption lang (String.eqb activeLang lang)))
                       SUPPORTED_LANGS))];
     title := "William" |}.




(** The page as it is loaded: an empty cache, nothing requested yet. *)
Definition visit (storage : gmap string string)
    (files : gmap string JsValue) (doc : Document) : World :=
  {| localStorage := storage;
     navigator := {| languages := Some ["en-US"]; language := "en-US" |};
     translationCache := ∅;
     document := doc;
     network := staticServer files;
     requests := [];
     console := [] |}.

(** ** Building the picker and starting up

    [createLanguagePicker] builds a picker detached from the document,
    puts it before the theme toggle and appends a deep copy of it to the
    mobile navigation.  The click listeners that it registers on the
    controls are no part of the document tree and are not modelled: what
    they do is to call [switchLanguage] with the language of the
    control. *)

Definition LANG_LABELS : gmap string string :=
  {[ "en" := "EN"; "pt-BR" := "PT"; "de" := "DE" ]}.

Definition LANG_NAMES : gmap string string :=
  {[ "en" := "English"; "pt-BR" := "Português"; "de" := "Deutsch" ]}.

(** [document.createElement(tag)] *)
Definition createElement (tag : string) : Element := mkElement tag ∅ [] [].

(** [el.className = tokens] *)
Definition set_className (tokens : list string) (e : Element) : Element :=
  mkElement (tagName e) (attributes e) tokens (childNodes e).

(** [el.classList.add(token)] *)
Definition classList_add (token : string) (e : Element) : Element :=
  if bool_decide (token ∈ classList e) then e
  else mkElement (tagName e) (attributes e) (classList e ++ [token])
         (childNodes e).

(** [parent.appendChild(child)] *)
Definition appendChild (child : Element) (parent : Element) : Element :=
  mkElement (tagName parent) (attributes parent) (classList parent)
    (childNodes parent ++ [Sub child]).

(** [parent.insertBefore(child, ref)] for [ref] the child node of index
    [i] of [parent]. *)
Definition insertBefore (child : Element) (i : nat) (parent : Element)
  : Element :=
  mkElement (tagName parent) (attributes parent) (classList parent)
    (take i (childNodes parent) ++ Sub child :: drop i (childNodes parent)).

(** [el.querySelector(sel)]: the first match among the descendants of
    [el], as a path from [el]. *)
Definition querySelectorIn (sel : Element -> bool) (e : Element)
  : option (list nat) :=
  head (childPaths (querySelectorAll sel) 0 (childNodes e)).

(** The callback of [SUPPORTED_LANGS.forEach] in [createLanguagePicker]:
    the control for [lang].  A language without a name would get the
    label that [setAttribute] makes of [undefined], and one without a
    caption no text. *)
Definition pickerButton (currentLang lang : string) : Element :=
  let btn := createElement "button" in
  let btn := set_className ["lang-option"] btn in
  let btn := setAttribute "data-lang" lang btn in
  let btn :=
    setAttribute "aria-label" (default "undefined" (LANG_NAMES !! lang)) btn in
  let btn :=
    setAttribute "aria-current"
      (if String.eqb lang currentLang then "true" else "false") btn in
  let btn := set_textContent (default EmptyString (LANG_LABELS !! lang)) btn in
  if String.eqb lang currentLang then classList_add "active" btn else btn.

Definition desktopPicker (currentLang : string) : Element :=
  let picker := createElement "div" in
  let picker := set_className ["lang-picker"] picker in
  let picker := setAttribute "role" "group" picker in
  let picker := setAttribute "aria-label" "Language selection" picker in
  fold_left
    (fun picker lang => appendChild (pickerButton currentLang lang) picker)
    SUPPORTED_LANGS picker.

(** The insertion before the theme toggle: nothing is done without a
    [.nav-actions] element that has a [.theme-toggle] below it, and
    [insertBefore] throws when that toggle is not a child of the
    [.nav-actions] element itself. *)
Definition insertDesktopPicker (picker root : Element) : Completion Element :=
  match querySelector (has_class "nav-actions") root with
  | None => Return root
  | Some p =>
      match element_at root p with
      | None => Return root
      | Some navActions =>
          match querySelectorIn (has_class "theme-toggle") navActions with
          | None => Return root
          | Some [i] => Return (update_at (insertBefore picker i) root p)
          | Some _ =>
              Throw (Error "NotFoundError: the node before which the new node is to be inserted is not a child of this node")
          end
      end
  end.

(** [mobileNav.appendChild(mobilePicker)] when there is a [.nav-mobile]. *)
Definition appendMobilePicker (picker root : Element) : Element :=
  match querySelector (has_class "nav-mobile") root with
  | Some m => update_at (appendChild picker) root m
  | None => root
  end.

Definition createLanguagePicker (w : World) : Completion unit * World :=
  let currentLang := resolveLanguage (localStorage w) (navigator w) in
  let picker := desktopPicker currentLang in
  match insertDesktopPicker picker (documentElement (document w)) with
  | Throw err => (Throw err, w)
  | Return root1 =>
      let mobilePicker := picker in
      (Return tt,
       with_document
         {| documentElement := appendMobilePicker mobilePicker root1;
            title := title (document w) |} w)
  end.

Definition initI18n (fuel : nat) (w : World)
  : option (Completion unit * World) :=
  match createLanguagePicker w with
  | (Throw err, w1) => Some (Throw err, w1)
  | (Return _, w1) =>
      let lang := resolveLanguage (localStorage w1) (navigator w1) in
      match loadTranslation fuel lang w1 with
      | None => None
      | Some (Throw err, w2) => Some (Throw err, w2)
      | Some (Return translations, w2) =>
          match applyTranslations translations (document w2) with
          | Throw err => Some (Throw err, w2)
          | Return doc1 =>
              match updatePicker lang doc1 with
              | Throw err => Some (Throw err, with_document doc1 w2)
              | Return doc2 => Some (Return tt, with_document doc2 w2)
              end
          end
      end
  end.

(** ** The theme toggle of the page script

    [initThemeToggle] of [script.js] runs on the same page.  It keeps the
    colour theme in the [data-theme] attribute of the root element and
    under its own key of [localStorage], and the label of the toggle
    button in step with it.  What
    [matchMedia('(prefers-color-scheme: light)').matches] gives is a
    boolean of the environment; [btn] is the handle of the first
    [.theme-toggle] element, [None] when the page has none. *)

Definition THEME_STORAGE_KEY : string := "theme".

Definition getInitialTheme (prefersLight : bool)
    (storage : gmap string string) : string :=
  match getItem storage THEME_STORAGE_KEY with
  | Some stored =>
      if String.eqb stored "light" || String.eqb stored "dark" then stored
      else if prefersLight then "light" else "dark"
  | None => if prefersLight then "light" else "dark"
  end.

(** [a || b] for a string [a] that may be [undefined]. *)
Definition or_else (a : option string) (b : string) : string :=
  match a with
  | Some s => if truthy_string s then s else b
  | None => b
  end.

(** The label that [applyTheme] computes: [btn?.dataset.ariaLight] is the
    attribute [data-aria-light] of the button. *)
Definition themeLabel (theme : string) (btn : option Element) : string :=
  let targetMode := if String.eqb theme "dark" then "light" else "dark" in
  if String.eqb targetMode "light"
  then or_else (btn ≫= getAttribute "data-aria-light") "Switch to light mode"
  else or_else (btn ≫= getAttribute "data-aria-dark") "Switch to dark mode".

(** [btn?.setAttribute('aria-label', label)] with the label read from the
    button itself. *)
Definition labelled (theme : string) (btn : Element) : Element :=
  setAttribute "aria-label" (themeLabel theme (Some btn)) btn.

Definition with_root (root : Element) (w : World) : World :=
  with_document
    {| documentElement := root; title := title (document w) |} w.

Definition applyTheme (btn : option (list nat)) (theme : string) (w : World)
  : World :=
  let root := setAttribute "data-theme" theme (documentElement (document w)) in
  let storage := setItem (localStorage w) THEME_STORAGE_KEY theme in
  let root :=
    match btn with
    | Some p => update_at (labelled theme) root p
    | None => root
    end in
  with_root root (with_localStorage storage w).

(** [initThemeToggle]: the theme applied when the page loads, and the
    button that the click listener is registered on. *)
Definition initThemeToggle (prefersLight : bool) (w : World)
  : option (list nat) * World :=
  let btn :=
    querySelector (has_class "theme-toggle") (documentElement (document w)) in
  (btn, applyTheme btn (getInitialTheme prefersLight (localStorage w)) w).

(** [el.classList.remove(token)] *)
Definition classList_remove (token : string) (e : Element) : Element :=
  mkElement (tagName e) (attributes e)
    (filter (fun c => c ≠ token) (classList e)) (childNodes e).

(** The click listener of the button, for the handle [p] that the button
    has in the document at the time of the click. *)
Definition themeToggle_click (p : list nat) (w : World) : World :=
  let root := documentElement (document w) in
  let current := default "dark" (getAttribute "data-theme" root) in
  let next := if String.eqb current "dark" then "light" else "dark" in
  let root := update_at (classList_add "theme-toggle--animating") root p in
  applyTheme (Some p) next (with_root root w).

(** The [transitionend] listener that a click registers. *)
Definition themeToggle_transitionend (p : list nat) (w : World) : World :=
  with_root
    (update_at (classList_remove "theme-toggle--animating")
       (documentElement (document w)) p)
    w.

(** ** A page with navigation, for the examples *)

(** A toggle with a label of its own for the light mode and an empty one
    for the dark mode. *)
Definition themeToggleButton : Element :=
  mkElement "button"
    {[ "data-aria-light" := "Light mode"; "data-aria-dark" := "" ]}
    ["theme-toggle"] [].

Definition heroSubtitle (text : string) : Element :=
  mkElement "p" {[ "data-i18n" := "hero.subtitle" ]} ["hero-subtitle"]
    (textNodes text).

(** The header holds [actions] in its [.nav-actions] element; the mobile
    navigation and the subtitle follow. *)
Definition sitePage (actions : list (Child Element)) (text : string)
  : Document :=
  {| documentElement :=
       mkElement "html" {[ "lang" := "en" ]} []
         [Sub (mkElement "body" ∅ []
                 [Sub (mkElement "div" ∅ ["nav-actions"] actions);
                  Sub (mkElement "nav" ∅ ["nav-mobile"] []);
                  Sub (heroSubtitle text)])];
     title := "William" |}.

End I18n.

(** * The typing effect of the page script

    [window.typeHeroSubtitle] types a text into the first
    [.hero-subtitle] element, one character for each timer that fires.
    The state is the document and [_typingTimer].  The module has at most
    one timer pending and [_typingTimer] names it, so the pending
    callback is kept in its place: what it will do, on which element,
    and how far it has come.  A text is the sequence of its characters
    as [text[index]] and [text.length] see them;
    [prefersReducedMotion()] is a boolean of the environment. *)

Definition TYPING_CURSOR_CLASS : string := "typing-cursor".

Inductive Timeout :=
| TypeChar (el : list nat) (text : string) (index : nat)
| RemoveCursor (el : list nat).

Record Typing := {
  typingRoot : Element;
  _typingTimer : option Timeout;
}.

(** [el.textContent] read: the text of the descendants, in order. *)
Fixpoint textContent (e : Element) : string :=
  match e with
  | mkElement _ _ _ children =>
      String.concat EmptyString
        (map (fun c => match c with
                       | Text s => s
                       | Sub k => textContent k
                       end) children)
  end.

(** [text[index]] as it is appended to a string. *)
Definition charAt (text : string) (index : nat) : string :=
  match String.get index text with
  | Some c => String c EmptyString
  | None => "undefined"
  end.

(** The inner function [typeChar], for the [index] that its closure
    holds. *)
Definition typeChar (el : list nat) (text : string) (index : nat)
    (root : Element) : Typing :=
  if index <? String.length text then
    {| typingRoot :=
         update_at
           (fun e => set_textContent (textContent e +:+ charAt text index) e)
           root el;
       _typingTimer := Some (TypeChar el text (S index)) |}
  else
    {| typingRoot := root; _typingTimer := Some (RemoveCursor el) |}.

Definition typeHeroSubtitle (reducedMotion : bool) (text : string)
    (s : Typing) : Typing :=
  match querySelector (has_class "hero-subtitle") (typingRoot s) with
  | None => s
  | Some el =>
      if negb (truthy_string text) then s
      else
        let root := update_at (setAttribute "aria-label" text) (typingRoot s) el in
        if reducedMotion then
          let root := update_at (set_textContent text) root el in
          let root := update_at (classList_remove TYPING_CURSOR_CLASS) root el in
          {| typingRoot := root; _typingTimer := None |}
        else
          let root := update_at (set_textContent EmptyString) root el in
          let root := update_at (classList_add TYPING_CURSOR_CLASS) root el in
          typeChar el text 0 root
  end.

(** The pending timer fires and its callback runs. *)
Definition fire (s : Typing) : Typing :=
  match _typingTimer s with
  | None => s
  | Some (TypeChar el text index) => typeChar el text index (typingRoot s)
  | Some (RemoveCursor el) =>
      {| typingRoot :=
           update_at (classList_remove TYPING_CURSOR_CLASS) (typingRoot s) el;
         _typingTimer := None |}
  end.

(** The subtitle while [n] characters of [text] are shown, and when the
    typing is over. *)
Definition typedHero (text : string) (n : nat) (hero : Element) : Element :=
  classList_add TYPING_CURSOR_CLASS
    (set_textContent (substring 0 n text)
       (setAttribute "aria-label" text hero)).

Definition shownHero (text : string) (hero : Element) : Element :=
  classList_remove TYPING_CURSOR_CLASS
    (set_textContent text (setAttribute "aria-label" text hero)).

(** * The countdown page

    [updateCountdown] splits the time left into days, hours, minutes and
    seconds and writes it out in Portuguese.  The four counts are what
    [Math.floor] gives, natural numbers; [remaining] is [None] when the
    target date has passed ([diff > 0] fails).  The page is the text of
    its two elements, the countdown and the message. *)

(** [`${n} ${n === 1 ? singular : plural}`] *)
Definition counted (n : nat) (singular plural : string) : string :=
  nat_to_string n +:+ " " +:+ (if n =? 1 then singular else plural).

Definition countdownParts (days hours minutes seconds : nat) : list string :=
  let parts := [] in
  let parts :=
    if 0 <? days then parts ++ [counted days "dia" "dias"] else parts in
  let parts :=
    if 0 <? hours then parts ++ [counted hours "hora" "horas"] else parts in
  let parts :=
    if 0 <? minutes then parts ++ [counted minutes "minuto" "minutos"]
    else parts in
  if 0 <=? seconds then parts ++ [counted seconds "segundo" "segundos"]
  else parts.

(** The joining of the parts: [parts.slice(0, -1)] is all but the last
    part, [parts.slice(-1)] the array of the last, which [+] turns into a
    string. *)
Definition formatParts (parts : list string) : string :=
  match parts with
  | [part] => part
  | [_; _] => join " e " parts
  | _ =>
      join ", " (take (length parts - 1) parts) +:+ " e "
      +:+ join "," (drop (length parts - 1) parts)
  end.

Record Remaining := {
  days : nat;
  hours : nat;
  minutes : nat;
  seconds : nat;
}.

Record CountdownPage := {
  countdownText : string;
  messageText : string;
}.

Definition updateCountdown (remaining : option Remaining) : CountdownPage :=
  match remaining with
  | Some r =>
      {| countdownText :=
           formatParts
             (countdownParts (days r) (hours r) (minutes r) (seconds r));
         messageText := "William ainda não chegou! Faltam:" |}
  | None =>
      {| countdownText := EmptyString;
         messageText := "Estou com meu amor em Uberlândia" |}
  end.

(** [copyCountdown]: the text handed to [navigator.clipboard.writeText],
    [None] when the function returns without copying. *)
Definition copyCountdown (page : CountdownPage) : option string :=
  let text := countdownText page in
  if negb (truthy_string text) then None else Some text.

(** ** What the resolver is specified to do

    A locale names its language by the part before its first dash, its
    primary subtag.  A supported code answers a locale by prefix when it
    is that subtag or starts with it and a dash. *)

Definition primarySubtag (locale pre : string) : Prop :=
  (forall a b, pre <> a +:+ "-" +:+ b) /\
  (locale = pre \/ exists rest, locale = pre +:+ "-" +:+ rest).

Definition prefixRelated (locale code : string) : Prop :=
  exists pre, primarySubtag locale pre /\
    (code = pre \/ exists tail, code = pre +:+ "-" +:+ tail).

(** A locale with neither an exact nor a prefix match. *)
Definition unmatched (supported : list string) (locale : string) : Prop :=
  (locale ∉ supported) /\
  forall code, code ∈ supported -> ~ prefixRelated locale code.

(** The first supported code, in the order of the list, that answers the
    locale by prefix. *)
Definition firstPrefixMatch (supported : list string) (locale code : string)
  : Prop :=
  exists i, supported !! i = Some code /\ prefixRelated locale code /\
    forall j other, j < i -> supported !! j = Some other ->
      ~ prefixRelated locale other.

(** * Properties *)

(** ** Strings *)

Lemma split_nonempty sep s : split sep s <> [].
Proof.
  destruct s as [|c s]; simpl; [discriminate|].
  destruct (Ascii.eqb c sep); [discriminate|].
  destruct (split sep s); discriminate.
Qed.

Lemma append_nil (b : string) : EmptyString +:+ b = b.
Proof. reflexivity. Qed.

Lemma append_cons (c : ascii) (a b : string) :
  String c a +:+ b = String c (a +:+ b).
Proof. reflexivity. Qed.

Lemma string_app_assoc (a b c : string) : (a +:+ b) +:+ c = a +:+ (b +:+ c).
Proof.
  induction a as [|x a IH]; [reflexivity|].
  rewrite !append_cons. by f_equal.
Qed.

Lemma string_prefix_append p s :
  String.prefix p s = true <-> exists t, s = p +:+ t.
Proof.
  revert s. induction p as [|c p IH]; intros s; simpl.
  - split; [intros _; by exists s | by destruct s].
  - destruct s as [|d s]; simpl.
    + split; [discriminate | intros [t Ht]; discriminate].
    + destruct (ascii_dec c d) as [->|Hne].
      * rewrite IH. split; intros [t Ht]; exists t;
          rewrite ?append_cons in *; congruence.
      * split; [discriminate|].
        intros [t Ht]. rewrite append_cons in Ht. congruence.
Qed.

Lemma includes_elem_of arr x : includes arr x = true <-> x ∈ arr.
Proof.
  unfold includes. rewrite existsb_exists. split.
  - intros (y & Hy & Heq). apply String.eqb_eq in Heq. subst.
    by apply list_elem_of_In.
  - intros Hx. exists x. split; [by apply list_elem_of_In|].
    apply String.eqb_refl.
Qed.

Lemma includes_not_elem_of arr x : includes arr x = false <-> x ∉ arr.
Proof.
  rewrite <- includes_elem_of. destruct (includes arr x); split; congruence.
Qed.

(** The first piece of [split] is the primary subtag, and nothing else is. *)
Lemma hd_split_primary locale :
  primarySubtag locale (hd EmptyString (split "-" locale)).
Proof.
  induction locale as [|c l IH]; simpl.
  - split; [|by left]. intros [|x a] b; discriminate.
  - destruct (Ascii.eqb c "-") eqn:Hc; simpl.
    + apply Ascii.eqb_eq in Hc. subst c. split.
      * intros [|x a] b; discriminate.
      * right. by exists l.
    + pose proof (split_nonempty "-" l) as Hne.
      destruct (split "-" l) as [|x xs]; [done|]. simpl in *.
      destruct IH as [Hno Hshape]. split.
      * intros [|y a] b; rewrite ?append_nil, ?append_cons;
          intros Heq; injection Heq as Hy Hrest.
        -- subst c. by rewrite Ascii.eqb_refl in Hc.
        -- by apply (Hno a b).
      * destruct Hshape as [->|[rest ->]]; [by left|]. right. by exists rest.
Qed.

Lemma primarySubtag_unique locale pre :
  primarySubtag locale pre -> hd EmptyString (split "-" locale) = pre.
Proof.
  revert locale. induction pre as [|c pre IH]; intros locale [Hno Hshape].
  - destruct Hshape as [->|[rest ->]]; reflexivity.
  - assert (Hc : Ascii.eqb c "-" = false).
    { apply Ascii.eqb_neq. intros ->. by apply (Hno EmptyString pre). }
    assert (Hpre : forall a b, pre <> a +:+ "-" +:+ b).
    { intros a b ->. by apply (Hno (String c a) b). }
    assert (Hgo : forall l, (l = pre \/ exists rest, l = pre +:+ "-" +:+ rest) ->
              hd EmptyString (split "-" (String c l)) = String c pre).
    { intros l Hl. simpl. rewrite Hc.
      pose proof (split_nonempty "-" l) as Hne.
      pose proof (IH l (conj Hpre Hl)) as Hhd.
      destruct (split "-" l) as [|x xs]; [done|]. simpl in *. by subst. }
    destruct Hshape as [->|[rest ->]]; [apply Hgo; by left|].
    rewrite append_cons. apply Hgo. right. by exists rest.
Qed.

Lemma prefixMatches_related locale code :
  prefixMatches (hd EmptyString (split "-" locale)) code = true
  <-> prefixRelated locale code.
Proof.
  unfold prefixMatches, startsWith.
  rewrite orb_true_iff, String.eqb_eq, string_prefix_append. split.
  - intros Hm. exists (hd EmptyString (split "-" locale)).
    split; [apply hd_split_primary|].
    destruct Hm as [->|[t Ht]]; [by left|]. right. exists t.
    by rewrite Ht, string_app_assoc.
  - intros (pre & Hpre & Hm). rewrite (primarySubtag_unique _ _ Hpre).
    destruct Hm as [->|[t Ht]]; [by left|]. right. exists t.
    by rewrite Ht, string_app_assoc.
Qed.

(** ** The resolver *)

Section ResolverFacts.
Variable supported : list string.
Variable defaultLang : string.

Lemma matchBrowserLang_elem_of l m :
  matchBrowserLang supported l = Some m -> m ∈ supported.
Proof.
  unfold matchBrowserLang.
  destruct (includes supported l) eqn:Hin.
  - intros [= <-]. by apply includes_elem_of.
  - destruct (find _ supported) as [x|] eqn:Hfind; [|discriminate].
    destruct (truthy_string x); [|discriminate]. intros [= <-].
    apply find_some in Hfind as [Hx _]. by apply list_elem_of_In.
Qed.

Lemma scanBrowserLangs_elem_of langs m :
  scanBrowserLangs supported langs = Some m -> m ∈ supported.
Proof.
  induction langs as [|l langs IH]; simpl; [discriminate|].
  destruct (matchBrowserLang supported l) as [x|] eqn:Hl; [|exact IH].
  intros [= <-]. by eapply matchBrowserLang_elem_of.
Qed.

Lemma resolveLanguageOver_elem_of storage nav :
  defaultLang ∈ supported ->
  resolveLanguageOver supported defaultLang storage nav ∈ supported.
Proof.
  intros Hdefault. unfold resolveLanguageOver, storedIsSupported.
  destruct (getItem storage I18N_STORAGE_KEY) as [s|] eqn:Hstored.
  - destruct (truthy_string s && includes supported s) eqn:Hok.
    { apply andb_true_iff in Hok as [_ Hin]. by apply includes_elem_of. }
    unfold detectBrowserLangOver.
    destruct (scanBrowserLangs _ _) as [d|] eqn:Hscan; [|done].
    destruct (truthy_string d); [|done]. by eapply scanBrowserLangs_elem_of.
  - unfold detectBrowserLangOver.
    destruct (scanBrowserLangs _ _) as [d|] eqn:Hscan; [|done].
    destruct (truthy_string d); [|done]. by eapply scanBrowserLangs_elem_of.
Qed.

Lemma matchBrowserLang_exact l :
  l ∈ supported -> matchBrowserLang supported l = Some l.
Proof.
  intros Hl. unfold matchBrowserLang.
  by rewrite (proj2 (includes_elem_of _ _) Hl).
Qed.

Lemma find_first {A} (f : A -> bool) (l : list A) i x :
  l !! i = Some x -> f x = true ->
  (forall j y, j < i -> l !! j = Some y -> f y = false) ->
  find f l = Some x.
Proof.
  revert i. induction l as [|a l IH]; intros i Hi Hx Hbefore; [done|].
  destruct i as [|i]; simpl in *.
  - injection Hi as ->. by rewrite Hx.
  - rewrite (Hbefore 0 a); [|lia|done].
    apply (IH i); [done..|]. intros j y Hj Hy. apply (Hbefore (S j) y); [lia|done].
Qed.

Lemma find_none_iff {A} (f : A -> bool) (l : list A) :
  (forall y, y ∈ l -> f y = false) -> find f l = None.
Proof.
  induction l as [|a l IH]; intros Hall; [done|]. simpl.
  rewrite (Hall a); [|by left]. apply IH. intros y Hy. apply Hall. by right.
Qed.

Lemma matchBrowserLang_prefix l m :
  l ∉ supported -> m <> EmptyString -> firstPrefixMatch supported l m ->
  matchBrowserLang supported l = Some m.
Proof.
  intros Hl Hm (i & Hi & Hrel & Hfirst). unfold matchBrowserLang.
  rewrite (proj2 (includes_not_elem_of _ _) Hl).
  rewrite (find_first _ _ i m); [|done|by apply prefixMatches_related|].
  - unfold truthy_string. by rewrite (proj2 (String.eqb_neq _ _) Hm).
  - intros j y Hj Hy. apply not_true_is_false. intros Hmatch.
    apply prefixMatches_related in Hmatch. by apply (Hfirst j y).
Qed.

Lemma matchBrowserLang_unmatched l :
  unmatched supported l -> matchBrowserLang supported l = None.
Proof.
  intros [Hl Hnone]. unfold matchBrowserLang.
  rewrite (proj2 (includes_not_elem_of _ _) Hl).
  rewrite find_none_iff; [done|]. intros y Hy.
  apply not_true_is_false. intros Hmatch.
  apply prefixMatches_related in Hmatch. by apply (Hnone y).
Qed.

Lemma scanBrowserLangs_skip before rest :
  (forall b, b ∈ before -> unmatched supported b) ->
  scanBrowserLangs supported (before ++ rest)
  = scanBrowserLangs supported rest.
Proof.
  induction before as [|b before IH]; intros Hall; [done|]. simpl.
  rewrite matchBrowserLang_unmatched; [|apply Hall; by left].
  apply IH. intros c Hc. apply Hall. by right.
Qed.

End ResolverFacts.

Lemma supported_truthy code :
  code ∈ SUPPORTED_LANGS -> truthy_string code = true.
Proof.
  unfold SUPPORTED_LANGS. rewrite !elem_of_cons, elem_of_nil.
  intros [->|[->|[->|[]]]]; reflexivity.
Qed.

Lemma resolveLanguage_detected storage nav :
  storedIsSupported SUPPORTED_LANGS (getItem storage I18N_STORAGE_KEY) = false ->
  resolveLanguage storage nav
  = default DEFAULT_LANG (scanBrowserLangs SUPPORTED_LANGS (browserLangs nav)).
Proof.
  intros Hno. unfold resolveLanguage, resolveLanguageOver. rewrite Hno.
  unfold detectBrowserLangOver.
  destruct (scanBrowserLangs _ _) as [d|] eqn:Hscan; [|done]. simpl.
  by rewrite supported_truthy; [|eapply scanBrowserLangs_elem_of].
Qed.

(** C1. Whatever the stored preference and the browser locales are,
    [resolveLanguage] returns one of the supported codes ["en"], ["pt-BR"],
    ["de"].  The function is total: there is no environment on which it
    fails. *)
Theorem resolveLanguage_supported (storage : gmap string string)
    (nav : Navigator) :
  resolveLanguage storage nav ∈ SUPPORTED_LANGS /\
  (resolveLanguage storage nav = "en" \/ resolveLanguage storage nav = "pt-BR"
   \/ resolveLanguage storage nav = "de").
Proof.
  assert (Hin : resolveLanguage storage nav ∈ SUPPORTED_LANGS).
  { apply resolveLanguageOver_elem_of. unfold DEFAULT_LANG, SUPPORTED_LANGS.
    by left. }
  split; [done|]. revert Hin. unfold SUPPORTED_LANGS.
  rewrite !elem_of_cons, elem_of_nil. tauto.
Qed.

(** C2. The precedence of [resolveLanguage].  (1) A stored preference that
    is a supported code is returned, whatever the browser locales.
    (2) Otherwise the locales are scanned in their order, and the first one
    that has a match decides: the locale itself when it is supported, else
    the first supported code that answers it by prefix.  (3) With no locale
    matched, the default ["en"] is returned.  The locales ["fr-FR"],
    ["de-AT"] give ["de"], over the codes en, de as over the module's. *)
Theorem resolveLanguage_precedence (storage : gmap string string)
    (nav : Navigator) :
  (forall stored, getItem storage I18N_STORAGE_KEY = Some stored ->
     stored ∈ SUPPORTED_LANGS -> resolveLanguage storage nav = stored) /\
  ((forall stored, getItem storage I18N_STORAGE_KEY = Some stored ->
      stored ∉ SUPPORTED_LANGS) ->
   (forall before locale after,
      browserLangs nav = before ++ locale :: after ->
      (forall b, b ∈ before -> unmatched SUPPORTED_LANGS b) ->
      (locale ∈ SUPPORTED_LANGS -> resolveLanguage storage nav = locale) /\
      (forall code, locale ∉ SUPPORTED_LANGS ->
         firstPrefixMatch SUPPORTED_LANGS locale code ->
         resolveLanguage storage nav = code)) /\
   ((forall b, b ∈ browserLangs nav -> unmatched SUPPORTED_LANGS b) ->
    resolveLanguage storage nav = DEFAULT_LANG)) /\
  resolveLanguageOver ["en"; "de"] "en" ∅
    {| languages := Some ["fr-FR"; "de-AT"]; language := "fr-FR" |} = "de" /\
  resolveLanguage ∅
    {| languages := Some ["fr-FR"; "de-AT"]; language := "fr-FR" |} = "de".
Proof.
  split; [|split; [|split; reflexivity]].
  - intros stored Hstored Hin. unfold resolveLanguage, resolveLanguageOver.
    rewrite Hstored. unfold storedIsSupported.
    by rewrite (supported_truthy _ Hin), (proj2 (includes_elem_of _ _) Hin).
  - intros Hstored.
    assert (Hno : storedIsSupported SUPPORTED_LANGS
                    (getItem storage I18N_STORAGE_KEY) = false).
    { destruct (getItem storage I18N_STORAGE_KEY) as [s|]; [|done].
      unfold storedIsSupported.
      by rewrite (proj2 (includes_not_elem_of _ _) (Hstored s eq_refl)),
        andb_false_r. }
    rewrite (resolveLanguage_detected _ _ Hno). split.
    + intros before locale after -> Hbefore.
      rewrite scanBrowserLangs_skip by done. simpl. split.
      * intros Hin. by rewrite matchBrowserLang_exact.
      * intros code Hout Hfirst.
        rewrite (matchBrowserLang_prefix _ _ code); [done..| |done].
        destruct Hfirst as (i & Hi & _). intros ->.
        apply list_elem_of_lookup_2 in Hi.
        by apply supported_truthy in Hi.
    + intros Hall.
      rewrite <- (app_nil_r (browserLangs nav)).
      by rewrite scanBrowserLangs_skip.
Qed.

(** The scan goes locale by locale: an earlier locale that matches by
    prefix wins over a later one that matches exactly. *)
Example resolveLanguage_locale_order :
  resolveLanguage ∅
    {| languages := Some ["de-AT"; "pt-BR"]; language := "de-AT" |} = "de".
Proof. reflexivity. Qed.

(** ** The loader *)

Section LoaderFacts.
Context `{JsNumber}.

Lemma loadTranslation_try_fails lang w :
  fetchFails lang w ->
  exists err, loadTranslation_try lang w = (Throw err, requested lang w).
Proof.
  unfold fetchFails, loadTranslation_try, fetch, requested.
  destruct (network w _ _) as [|r]; [by eexists|].
  intros [Hok|Hbody].
  - rewrite Hok. by eexists.
  - destruct (ok r); simpl; [|by eexists].
    unfold json. rewrite Hbody. by eexists.
Qed.

Lemma loadTranslation_try_succeeds lang w data :
  fetchSucceeds lang w data ->
  loadTranslation_try lang w
  = (Return data,
     with_translationCache (<[lang := data]> (translationCache w))
       (requested lang w)).
Proof.
  intros (r & Hr & Hok & Hbody).
  unfold loadTranslation_try, fetch, json, requested.
  by rewrite Hr, Hok, Hbody.
Qed.

Lemma fetch_outcome lang w :
  fetchFails lang w \/ exists data, fetchSucceeds lang w data.
Proof.
  unfold fetchFails, fetchSucceeds.
  destruct (network w _ _) as [|r]; [by left|].
  destruct (ok r) eqn:Hok; [|left; by left].
  destruct (body r) as [data|] eqn:Hbody; [|left; by right].
  right. exists data, r. done.
Qed.

Lemma loadTranslation_hit fuel lang w :
  truthy (cached lang w) = true ->
  loadTranslation (S fuel) lang w = Some (Return (cached lang w), w).
Proof. intros Hhit. simpl. by rewrite Hhit. Qed.

Lemma loadTranslation_miss_succeeds fuel lang w data :
  truthy (cached lang w) = false -> fetchSucceeds lang w data ->
  loadTranslation (S fuel) lang w
  = Some (Return data,
          with_translationCache (<[lang := data]> (translationCache w))
            (requested lang w)).
Proof.
  intros Hmiss Hfetch. simpl.
  by rewrite Hmiss, (loadTranslation_try_succeeds _ _ _ Hfetch).
Qed.

(** The default language: no further call. *)
Lemma loadTranslation_default_fails fuel w :
  truthy (cached DEFAULT_LANG w) = false -> fetchFails DEFAULT_LANG w ->
  exists err,
    loadTranslation (S fuel) DEFAULT_LANG w
    = Some (Return (JObj ∅),
            console_warn (failureMessage DEFAULT_LANG) err
              (requested DEFAULT_LANG w)).
Proof.
  intros Hmiss Hfetch.
  destruct (loadTranslation_try_fails _ _ Hfetch) as [err Htry].
  exists err. simpl. rewrite Hmiss. unfold DEFAULT_LANG in *. by rewrite Htry.
Qed.

Lemma loadTranslation_other_fails fuel lang w :
  lang <> DEFAULT_LANG ->
  truthy (cached lang w) = false -> fetchFails lang w ->
  exists err,
    loadTranslation (S fuel) lang w
    = loadTranslation fuel DEFAULT_LANG
        (console_warn (failureMessage lang) err (requested lang w)).
Proof.
  intros Hlang Hmiss Hfetch.
  destruct (loadTranslation_try_fails _ _ Hfetch) as [err Htry].
  exists err. simpl. rewrite Hmiss, Htry.
  by rewrite (proj2 (String.eqb_neq _ _) Hlang).
Qed.

(** One call for the default language returns, and touches nothing but
    the cache entry of the default language, the request log and the
    console. *)
Lemma loadTranslation_default_returns fuel w :
  exists bundle w',
    loadTranslation (S fuel) DEFAULT_LANG w = Some (Return bundle, w') /\
    document w' = document w /\ localStorage w' = localStorage w /\
    navigator w' = navigator w /\ network w' = network w /\
    length (requests w') <= length (requests w) + 1 /\
    (forall k, k <> DEFAULT_LANG ->
       translationCache w' !! k = translationCache w !! k).
Proof.
  destruct (truthy (cached DEFAULT_LANG w)) eqn:Hhit.
  { eexists _, _. rewrite loadTranslation_hit by done.
    repeat split; try done. lia. }
  destruct (fetch_outcome DEFAULT_LANG w) as [Hfail|[data Hok]].
  - destruct (loadTranslation_default_fails fuel w Hhit Hfail) as [err ->].
    eexists _, _. repeat split; simpl; try done.
    rewrite length_app. simpl. lia.
  - rewrite (loadTranslation_miss_succeeds _ _ _ data) by done.
    eexists _, _. repeat split; simpl; try done.
    + rewrite length_app. simpl. lia.
    + intros k Hk. by rewrite lookup_insert_ne.
Qed.

(** C4. A call of [loadTranslation] always returns a bundle and never
    throws, two nested calls being enough for any language.  When the
    request for [lang] fails, a warning is logged and the result is that of
    loading the default language; when the default language fails too, or
    is the language that failed, the result is the empty bundle.  The
    document and the stored preference are as before: the warning on the
    console is all that shows. *)
Theorem loadTranslation_falls_back (fuel : nat) (lang : string) (w : World) :
  exists bundle w',
    loadTranslation (S (S fuel)) lang w = Some (Return bundle, w') /\
    document w' = document w /\ localStorage w' = localStorage w /\
    length (requests w') <= length (requests w) + 2 /\
    (truthy (cached lang w) = false -> fetchFails lang w ->
     exists err,
       let w1 := console_warn (failureMessage lang) err (requested lang w) in
       (console w1 = console w ++ [(failureMessage lang, err)]) /\
       (lang <> DEFAULT_LANG ->
          loadTranslation (S fuel) DEFAULT_LANG w1 = Some (Return bundle, w')) /\
       (lang <> DEFAULT_LANG ->
          truthy (cached DEFAULT_LANG w1) = false ->
          fetchFails DEFAULT_LANG w1 ->
          bundle = JObj ∅ /\
          exists err',
            w' = console_warn (failureMessage DEFAULT_LANG) err'
                   (requested DEFAULT_LANG w1)) /\
       (lang = DEFAULT_LANG -> bundle = JObj ∅ /\ w' = w1)).
Proof.
  destruct (truthy (cached lang w)) eqn:Hhit.
  { eexists _, _. rewrite loadTranslation_hit by done.
    repeat split; try done. lia. }
  destruct (fetch_outcome lang w) as [Hfail|[data Hok]].
  - destruct (decide (lang = DEFAULT_LANG)) as [->|Hlang].
    + destruct (loadTranslation_default_fails (S fuel) w Hhit Hfail)
        as [err Hload].
      eexists _, _. split; [exact Hload|].
      split; [done|]. split; [done|]. split.
      { simpl. rewrite length_app. simpl. lia. }
      intros _ _. exists err. repeat split; done.
    + destruct (loadTranslation_other_fails (S fuel) lang w Hlang Hhit Hfail)
        as [err Hload].
      destruct (loadTranslation_default_returns fuel
                  (console_warn (failureMessage lang) err (requested lang w)))
        as (bundle & w' & Hdef & Hdoc & Hstore & _ & _ & Hreq & _).
      exists bundle, w'. rewrite Hload. split; [done|].
      split; [done|]. split; [done|]. split.
      { revert Hreq. simpl. rewrite length_app. simpl. lia. }
      intros _ _. exists err. split; [done|]. split; [done|]. split; [|done].
      intros _ Hmiss' Hfail'.
      destruct (loadTranslation_default_fails fuel _ Hmiss' Hfail')
        as [err' Hload'].
      rewrite Hload' in Hdef. injection Hdef as <- <-. split; [done|].
      by exists err'.
  - rewrite (loadTranslation_miss_succeeds _ _ _ data) by done.
    eexists _, _. split; [done|]. split; [done|]. split; [done|]. split.
    { simpl. rewrite length_app. simpl. lia. }
    intros _ Hfail. exfalso. destruct Hok as (r & Hr & Hokr & Hbody).
    unfold fetchFails in Hfail. rewrite Hr in Hfail.
    destruct Hfail; congruence.
Qed.

(** C9. A call whose request for [lang] fails leaves the cache entry of
    [lang] as it was, so a code without an entry still has none after the
    call; the only entry that the call can write is that of the default
    language, from the fallback. *)
Theorem loadTranslation_failure_not_cached (fuel : nat) (lang : string)
    (w : World) :
  truthy (cached lang w) = false -> fetchFails lang w ->
  exists bundle w',
    loadTranslation (S (S fuel)) lang w = Some (Return bundle, w') /\
    translationCache w' !! lang = translationCache w !! lang /\
    (translationCache w !! lang = None -> translationCache w' !! lang = None) /\
    (forall k, k <> DEFAULT_LANG ->
       translationCache w' !! k = translationCache w !! k).
Proof.
  intros Hmiss Hfail.
  destruct (decide (lang = DEFAULT_LANG)) as [->|Hlang].
  - destruct (loadTranslation_default_fails (S fuel) w Hmiss Hfail)
      as [err Hload].
    eexists _, _. split; [exact Hload|]. by repeat split.
  - destruct (loadTranslation_other_fails (S fuel) lang w Hlang Hmiss Hfail)
      as [err Hload].
    destruct (loadTranslation_default_returns fuel
                (console_warn (failureMessage lang) err (requested lang w)))
      as (bundle & w' & Hdef & _ & _ & _ & _ & _ & Hcache).
    exists bundle, w'. rewrite Hload. split; [done|].
    assert (Hsame : translationCache w' !! lang = translationCache w !! lang)
      by apply (Hcache lang Hlang).
    split; [done|]. split; [by rewrite Hsame|]. exact Hcache.
Qed.

(** C3, as the code has it.  A call that finds no usable entry for [lang]
    and whose request succeeds makes that one request, stores the decoded
    bundle under [lang] and returns it.  From then on, and as long as the
    cache holds that bundle, a call for [lang] returns it and leaves the
    whole state, the request log included, as it is, provided that the
    bundle is truthy, which every JSON object is. *)
Theorem loadTranslation_cached_after_success (fuel : nat) (lang : string)
    (w : World) (data : JsValue) :
  truthy (cached lang w) = false -> fetchSucceeds lang w data ->
  exists w1,
    loadTranslation (S fuel) lang w = Some (Return data, w1) /\
    translationCache w1 !! lang = Some data /\
    requests w1 = requests w ++ [bundleUrl lang] /\
    (truthy data = true ->
     forall fuel' w2, translationCache w2 !! lang = Some data ->
       loadTranslation (S fuel') lang w2 = Some (Return data, w2)).
Proof.
  intros Hmiss Hok.
  rewrite (loadTranslation_miss_succeeds _ _ _ data) by done.
  eexists. split; [done|]. split; [apply lookup_insert_eq|]. split; [done|].
  intros Htruthy fuel' w2 Hcached.
  assert (Hval : cached lang w2 = data) by (unfold cached; by rewrite Hcached).
  rewrite loadTranslation_hit; rewrite Hval; done.
Qed.

End LoaderFacts.

(** ** The document tree *)

Section TreeFacts.
Context `{JsNumber}.

(** Induction on an element, with the property for its child elements. *)
Lemma Element_tree_ind (P : Element -> Prop) :
  (forall tag attrs classes children,
     Forall (below_all P) children ->
     P (mkElement tag attrs classes children)) ->
  forall e, P e.
Proof.
  intros step. fix rec 1. intros [tag attrs classes children].
  apply step. induction children as [|[s|k] children IH]; constructor; simpl;
    auto.
Qed.

Lemma element_eta e :
  mkElement (tagName e) (attributes e) (classList e) (childNodes e) = e.
Proof. by destruct e. Qed.

Lemma querySelectorAll_unfold sel e :
  querySelectorAll sel e
  = (if sel e then [[]] else [])
    ++ childPaths (querySelectorAll sel) 0 (childNodes e).
Proof. by destruct e. Qed.

Lemma textNodes_no_element s i :
  forall k, textNodes s !! i <> Some (Sub k).
Proof.
  intros k. unfold textNodes. destruct (String.eqb s EmptyString).
  - by rewrite lookup_nil.
  - destruct i as [|i]; simpl; [discriminate|]. by rewrite lookup_nil.
Qed.

(** *** The loops *)

Lemma forEach_app {A S} (f : S -> A -> Completion S) l1 l2 s :
  forEach f (l1 ++ l2) s
  = match forEach f l1 s with
    | Return s' => forEach f l2 s'
    | Throw err => Throw err
    end.
Proof.
  revert s. induction l1 as [|x l1 IH]; intros s; simpl; [done|].
  destruct (f s x); [apply IH|done].
Qed.

(** Handles into the [i]-th child act on that child alone. *)
Lemma forEach_in_child cb i tag attrs classes ps :
  forall children k,
    children !! i = Some (Sub k) ->
    forEach (on_element cb) (map (cons i) ps)
      (mkElement tag attrs classes children)
    = match forEach (on_element cb) ps k with
      | Return k' =>
          Return (mkElement tag attrs classes (<[i := Sub k']> children))
      | Throw err => Throw err
      end.
Proof.
  induction ps as [|p ps IH]; intros children k Hk; simpl.
  - by rewrite list_insert_id.
  - unfold on_element at 1 3. simpl. rewrite Hk.
    destruct (element_at k p) as [el|] eqn:Hel.
    + destruct (cb el) as [el'|err]; [|done].
      rewrite (IH (<[i := Sub (update_at (fun _ => el') k p)]> children)
                 (update_at (fun _ => el') k p)).
      * destruct (forEach _ ps _); [|done].
        by rewrite list_insert_insert_eq.
      * apply list_lookup_insert_eq. by eapply lookup_lt_Some.
    + by apply IH.
Qed.

(** The sweep over the child nodes, left to right. *)
Lemma forEach_children cb pathsOf F tag attrs classes :
  forall rest done_,
    Forall (below_all (fun k =>
              forEach (on_element cb) (pathsOf k) k = Return (F k))) rest ->
    forEach (on_element cb) (childPaths pathsOf (length done_) rest)
      (mkElement tag attrs classes (done_ ++ rest))
    = Return (mkElement tag attrs classes (done_ ++ map (childMap F) rest)).
Proof.
  induction rest as [|[s|k] rest IH]; intros done_ Hall; simpl.
  - done.
  - apply Forall_cons in Hall as [_ Hall].
    specialize (IH (done_ ++ [Text s]) Hall).
    rewrite length_app, Nat.add_1_r, <- !app_assoc in IH. exact IH.
  - apply Forall_cons in Hall as [Hk Hall]. simpl in Hk.
    rewrite forEach_app.
    rewrite (forEach_in_child _ _ _ _ _ _ _ k);
      [|by rewrite lookup_app_r, Nat.sub_diag].
    rewrite Hk.
    replace (<[length done_ := Sub (F k)]> (done_ ++ Sub k :: rest))
      with ((done_ ++ [Sub (F k)]) ++ rest).
    + specialize (IH (done_ ++ [Sub (F k)]) Hall).
      rewrite length_app, Nat.add_1_r in IH. rewrite IH.
      by rewrite <- app_assoc.
    + rewrite insert_app_r_alt, Nat.sub_diag by done.
      by rewrite <- app_assoc.
Qed.

(** Handles below an element whose child nodes are text only name nothing. *)
Lemma forEach_detached cb pathsOf tag attrs classes children :
  (forall i k, children !! i <> Some (Sub k)) ->
  forall ks i,
    forEach (on_element cb) (childPaths pathsOf i ks)
      (mkElement tag attrs classes children)
    = Return (mkElement tag attrs classes children).
Proof.
  intros Hnone.
  assert (Hmap : forall i ps,
    forEach (on_element cb) (map (cons i) ps)
      (mkElement tag attrs classes children)
    = Return (mkElement tag attrs classes children)).
  { intros i ps. induction ps as [|p ps IH]; simpl; [done|].
    unfold on_element at 1. simpl.
    destruct (children !! i) as [[s|k]|] eqn:Hi; [done| |done].
    by destruct (Hnone i k). }
  induction ks as [|[s|k] ks IH]; intros i; simpl; [done|apply IH|].
  rewrite forEach_app, Hmap. apply IH.
Qed.

Lemma has_attribute_true name e :
  has_attribute name e = true <-> is_Some (getAttribute name e).
Proof. unfold has_attribute. by rewrite bool_decide_eq_true. Qed.

Lemma has_attribute_false name e :
  has_attribute name e = false <-> getAttribute name e = None.
Proof.
  unfold has_attribute. rewrite bool_decide_eq_false.
  by rewrite <- eq_None_not_Some.
Qed.

(** The loop over [[data-i18n]] never throws, and is the map
    [translateTextTree]. *)
Lemma forEach_translateText t e :
  forEach (on_element (translateText t))
    (querySelectorAll (has_attribute "data-i18n") e) e
  = Return (translateTextTree t e).
Proof.
  induction e as [tag attrs classes children IH] using Element_tree_ind.
  rewrite querySelectorAll_unfold.
  set (e := mkElement tag attrs classes children).
  assert (Hsweep :
    forEach (on_element (translateText t))
      (childPaths (querySelectorAll (has_attribute "data-i18n")) 0 children) e
    = Return (mkElement tag attrs classes
                (map (childMap (translateTextTree t)) children))).
  { apply (forEach_children _ _ (translateTextTree t) tag attrs classes
             children [] IH). }
  simpl translateTextTree. fold e. unfold markerValue.
  destruct (getAttribute "data-i18n" e) as [key|] eqn:Hkey.
  - rewrite (proj2 (has_attribute_true _ _)) by (rewrite Hkey; eauto).
    simpl. unfold on_element at 1. simpl.
    unfold translateText, translationFor. fold e. rewrite Hkey.
    destruct (nullish (getNestedValue t key)) eqn:Hnull; simpl.
    + exact Hsweep.
    + apply forEach_detached. intros i k. apply textNodes_no_element.
  - rewrite (proj2 (has_attribute_false _ _)) by done. simpl. exact Hsweep.
Qed.

(** A loop whose callback keeps the child nodes never throws on the
    elements it selects, and is the map [mapTree]. *)
Lemma forEach_mapTree cb sel g e :
  (forall el, sel el = true -> cb el = Return (g el)) ->
  (forall el, childNodes (g el) = childNodes el) ->
  forEach (on_element cb) (querySelectorAll sel e) e
  = Return (mapTree sel g e).
Proof.
  intros Hcb Hkeep.
  induction e as [tag attrs classes children IH] using Element_tree_ind.
  rewrite querySelectorAll_unfold.
  set (e := mkElement tag attrs classes children).
  simpl mapTree. fold e.
  destruct (sel e) eqn:Hsel; simpl.
  - unfold on_element at 1. simpl. rewrite (Hcb e Hsel).
    rewrite <- (element_eta (g e)), Hkeep.
    apply (forEach_children _ _ (mapTree sel g) _ _ _ children [] IH).
  - apply (forEach_children _ _ (mapTree sel g) tag attrs classes
             children [] IH).
Qed.

Lemma forEach_translateAriaLabel t e :
  forEach (on_element (translateAriaLabel t))
    (querySelectorAll (has_attribute "data-i18n-aria-label") e) e
  = Return (mapTree (has_attribute "data-i18n-aria-label") (ariaLabelled t) e).
Proof.
  apply forEach_mapTree.
  - intros el Hsel. apply has_attribute_true in Hsel as [key Hkey].
    unfold translateAriaLabel, translationFor, ariaLabelled, markerValue.
    rewrite Hkey. by destruct (nullish _).
  - intros el. unfold ariaLabelled. by destruct (negb _).
Qed.

Lemma forEach_markOption lang e :
  forEach (on_element (markOption lang))
    (querySelectorAll (has_class "lang-option") e) e
  = Return (mapTree (has_class "lang-option") (optionMarked lang) e).
Proof. by apply forEach_mapTree. Qed.

(** [applyTranslations] and [updatePicker] return, whatever the bundle
    and the document. *)
Lemma applyTranslations_returns t doc :
  applyTranslations t doc = Return (appliedDocument t doc).
Proof.
  unfold applyTranslations.
  by rewrite forEach_translateText, forEach_translateAriaLabel.
Qed.

Lemma updatePicker_returns lang doc :
  updatePicker lang doc = Return (pickedDocument lang doc).
Proof. unfold updatePicker. by rewrite forEach_markOption. Qed.

(** *** Callbacks that keep the child nodes *)

Lemma attributeStep_eq f tag attrs classes children :
  attributeStep f ->
  f (mkElement tag attrs classes children)
  = mkElement (tagName (f (mkElement tag attrs classes [])))
      (attributes (f (mkElement tag attrs classes [])))
      (classList (f (mkElement tag attrs classes []))) children.
Proof. intros Hf. apply Hf. Qed.

Lemma attributeStep_childNodes f e :
  attributeStep f -> childNodes (f e) = childNodes e.
Proof. intros Hf. destruct e. by rewrite attributeStep_eq. Qed.

Lemma guarded_attributeStep sel g :
  attributeSelector sel -> attributeStep g -> attributeStep (guarded sel g).
Proof.
  intros Hsel Hg tag attrs classes k1 k2. unfold guarded.
  rewrite (Hsel tag attrs classes k2 k1).
  destruct (sel _); [apply Hg|done].
Qed.

Lemma setAttribute_attributeStep name value :
  attributeStep (setAttribute name value).
Proof. by intros tag attrs classes k1 k2. Qed.


Lemma optionMarked_attributeStep lang : attributeStep (optionMarked lang).
Proof. by intros tag attrs classes k1 k2. Qed.


Lemma has_class_attributeSelector token : attributeSelector (has_class token).
Proof. by intros tag attrs classes k1 k2. Qed.


Lemma getAttribute_setAttribute name name' value e :
  getAttribute name (setAttribute name' value e)
  = if decide (name' = name) then Some value else getAttribute name e.
Proof. unfold getAttribute, setAttribute. simpl. apply lookup_insert. Qed.

Lemma setAttribute_keeps name name' value :
  name' <> name -> keepsAttribute name (setAttribute name' value).
Proof.
  intros Hne e. rewrite getAttribute_setAttribute. by case_decide.
Qed.

Lemma guarded_keeps name sel g :
  keepsAttribute name g -> keepsAttribute name (guarded sel g).
Proof. intros Hg e. unfold guarded. destruct (sel e); [apply Hg|done]. Qed.


Lemma optionMarked_keeps name lang :
  name <> "aria-current" -> keepsAttribute name (optionMarked lang).
Proof.
  intros Hne e. unfold optionMarked. by rewrite setAttribute_keeps.
Qed.

Lemma mapTree_unfold sel g e :
  mapTree sel g e
  = mkElement (tagName (guarded sel g e)) (attributes (guarded sel g e))
      (classList (guarded sel g e))
      (map (childMap (mapTree sel g)) (childNodes e)).
Proof. by destruct e. Qed.




Lemma map_childMap_textNodes f s :
  map (childMap f) (textNodes s) = textNodes s.
Proof. unfold textNodes. by destruct (String.eqb _ _). Qed.

Lemma map_childMap_ext f g children :
  Forall (below_all (fun k => f k = g k)) children ->
  map (childMap f) children = map (childMap g) children.
Proof.
  induction 1 as [|[s|k] children Hk _ IH]; simpl in *; [done|by f_equal|].
  by rewrite Hk, IH.
Qed.

(** *** The loop over [[data-i18n]] as a map *)



Lemma map_fmap {A B} (f : A -> B) (l : list A) : map f l = f <$> l.
Proof. reflexivity. Qed.

Lemma lookup_map_childMap f children i :
  map (childMap f) children !! i = childMap f <$> children !! i.
Proof. rewrite map_fmap. apply list_lookup_fmap. Qed.

Lemma map_childMap_insert f children i k :
  map (childMap f) (<[i := Sub k]> children)
  = <[i := Sub (f k)]> (map (childMap f) children).
Proof. rewrite !map_fmap. by rewrite list_fmap_insert. Qed.

Lemma update_at_nil f e : update_at f e [] = f e.
Proof. reflexivity. Qed.

Lemma update_at_cons f tag attrs classes children i p :
  update_at f (mkElement tag attrs classes children) (i :: p)
  = match children !! i with
    | Some (Sub k) =>
        mkElement tag attrs classes (<[i := Sub (update_at f k p)]> children)
    | _ => mkElement tag attrs classes children
    end.
Proof. reflexivity. Qed.



(** *** Loops that keep the child nodes, as maps *)

Lemma mapTree_idem sel g e :
  attributeSelector sel -> attributeStep g ->
  (forall el, guarded sel g (guarded sel g el) = guarded sel g el) ->
  mapTree sel g (mapTree sel g e) = mapTree sel g e.
Proof.
  intros Hsel Hg Hidem.
  pose proof (guarded_attributeStep sel g Hsel Hg) as HG.
  induction e as [tag attrs classes children IH] using Element_tree_ind.
  set (e := mkElement tag attrs classes children).
  rewrite (mapTree_unfold sel g e), mapTree_unfold. simpl.
  assert (Hhead :
    guarded sel g
      (mkElement (tagName (guarded sel g e)) (attributes (guarded sel g e))
         (classList (guarded sel g e)) (map (childMap (mapTree sel g)) children))
    = mkElement (tagName (guarded sel g e)) (attributes (guarded sel g e))
        (classList (guarded sel g e)) (map (childMap (mapTree sel g)) children)).
  { rewrite HG with (k1 := childNodes (guarded sel g e)).
    by rewrite element_eta, Hidem. }
  rewrite Hhead. simpl. f_equal.
  rewrite map_map. apply map_ext_Forall.
  eapply Forall_impl; [exact IH|]. intros [s|k]; simpl; [done|]. by intros ->.
Qed.

Lemma mapTree_update_at sel g f p :
  attributeSelector sel -> attributeStep g -> attributeStep f ->
  (forall el, guarded sel g (f el) = f (guarded sel g el)) ->
  forall e,
    mapTree sel g (update_at f e p) = update_at f (mapTree sel g e) p.
Proof.
  intros Hsel Hg Hf Hcomm.
  pose proof (guarded_attributeStep sel g Hsel Hg) as HG.
  induction p as [|i p IH]; intros [tag attrs classes children].
  - rewrite !update_at_nil. set (e := mkElement tag attrs classes children).
    rewrite (mapTree_unfold sel g e), mapTree_unfold.
    rewrite (attributeStep_childNodes f e Hf), Hcomm.
    rewrite (Hf _ _ _ (childNodes (guarded sel g e))
               (map (childMap (mapTree sel g)) (childNodes e))).
    by rewrite element_eta.
  - rewrite update_at_cons.
    rewrite (mapTree_unfold sel g (mkElement tag attrs classes children)).
    rewrite update_at_cons. simpl childNodes. rewrite lookup_map_childMap.
    destruct (children !! i) as [[s|k]|] eqn:Hi;
      cbn [fmap option_fmap option_map childMap];
      rewrite mapTree_unfold; try done.
    simpl childNodes. rewrite map_childMap_insert, IH.
    by rewrite (HG tag attrs classes children).
Qed.



Lemma childPaths_insert P children j k k' :
  children !! j = Some (Sub k) -> P k' = P k ->
  forall i,
    childPaths P i (<[j := Sub k']> children) = childPaths P i children.
Proof.
  revert j. induction children as [|c children IH]; intros j Hj HP i; [done|].
  destruct j as [|j]; simpl in *.
  - injection Hj as ->. by rewrite HP.
  - destruct c as [s|c]; by rewrite (IH j).
Qed.



Lemma update_at_twice f g p :
  forall e, update_at f (update_at g e p) p = update_at (fun el => f (g el)) e p.
Proof.
  induction p as [|i p IH]; intros [tag attrs classes children]; [done|].
  rewrite !update_at_cons.
  destruct (children !! i) as [[s|k]|] eqn:Hi;
    rewrite ?update_at_cons, ?Hi; try done.
  rewrite list_lookup_insert_eq by (by eapply lookup_lt_Some).
  by rewrite list_insert_insert_eq, IH.
Qed.

Lemma update_at_ext f g p :
  (forall el, f el = g el) -> forall e, update_at f e p = update_at g e p.
Proof.
  intros Hfg. induction p as [|i p IH]; intros [tag attrs classes children];
    [apply Hfg|].
  rewrite !update_at_cons. destruct (children !! i) as [[s|k]|]; try done.
  by rewrite IH.
Qed.

(** *** The passes of [applyTranslations] *)

Lemma setAttribute_twice name value e :
  setAttribute name value (setAttribute name value e)
  = setAttribute name value e.
Proof. unfold setAttribute. simpl. by rewrite insert_insert_eq. Qed.

Lemma setAttribute_comm name name' value value' e :
  name <> name' ->
  setAttribute name value (setAttribute name' value' e)
  = setAttribute name' value' (setAttribute name value e).
Proof.
  intros Hne. unfold setAttribute. simpl. by rewrite insert_insert_ne.
Qed.











(** *** Elements of the document that a pass arrives at *)

Lemma element_at_cons tag attrs classes children i p :
  element_at (mkElement tag attrs classes children) (i :: p)
  = match children !! i with
    | Some (Sub k) => element_at k p
    | _ => None
    end.
Proof. reflexivity. Qed.

Lemma element_at_mapTree sel g p :
  forall e,
    element_at (mapTree sel g e) p = mapTree sel g <$> element_at e p.
Proof.
  induction p as [|i p IH]; intros [tag attrs classes children]; [done|].
  rewrite mapTree_unfold, !element_at_cons. simpl childNodes.
  rewrite lookup_map_childMap.
  destruct (children !! i) as [[s|k]|]; simpl; [done|apply IH|done].
Qed.

Lemma element_at_attributeStep f e i p :
  attributeStep f -> element_at (f e) (i :: p) = element_at e (i :: p).
Proof.
  intros Hf. destruct e as [tag attrs classes children].
  by rewrite (attributeStep_eq f _ _ _ _ Hf).
Qed.






(** What an update somewhere inside an element leaves of it. *)
Lemma update_at_getAttribute name f el q :
  keepsAttribute name f ->
  getAttribute name (update_at f el q) = getAttribute name el.
Proof.
  intros Hf. destruct q as [|i q]; [apply Hf|].
  destruct el as [tag attrs classes children]. rewrite update_at_cons.
  by destruct (children !! i) as [[s|k]|].
Qed.


Lemma update_at_classList f el q :
  (forall e, classList (f e) = classList e) ->
  classList (update_at f el q) = classList el.
Proof.
  intros Hf. destruct q as [|i q]; [apply Hf|].
  destruct el as [tag attrs classes children]. rewrite update_at_cons.
  by destruct (children !! i) as [[s|k]|].
Qed.



(** *** Translations are shown *)




(** *** Labels are carried *)




(** *** The picker controls *)

Lemma classList_toggle_token token force e :
  has_class token (classList_toggle token force e) = force.
Proof.
  unfold has_class, classList_toggle. simpl.
  destruct (bool_decide (token ∈ classList e)) eqn:Hin; destruct force.
  - done.
  - apply bool_decide_eq_false. rewrite list_elem_of_filter. tauto.
  - apply bool_decide_eq_true. apply elem_of_app. right. by left.
  - done.
Qed.

Lemma has_class_setAttribute token name value e :
  has_class token (setAttribute name value e) = has_class token e.
Proof. done. Qed.





(** *** The document after a switch *)








(** *** A key that does not resolve *)





Lemma querySelectorAll_matches sel p :
  forall root, p ∈ querySelectorAll sel root ->
    exists el, element_at root p = Some el /\ sel el = true.
Proof.
  induction p as [|i p IH]; intros [tag attrs classes children];
    rewrite querySelectorAll_unfold, elem_of_app.
  - intros [Hroot|Hbelow].
    + destruct (sel _) eqn:Hsel; [by eexists|by apply elem_of_nil in Hroot].
    + exfalso. simpl in Hbelow. revert Hbelow. generalize 0.
      induction children as [|[s|k] children IHc]; intros n; simpl.
      * by rewrite elem_of_nil.
      * apply IHc.
      * rewrite elem_of_app, list_elem_of_fmap.
        intros [(q & Hq & _)|Hrest]; [done|by apply (IHc (S n))].
  - intros [Hroot|Hbelow].
    + destruct (sel _); [|by apply elem_of_nil in Hroot].
      by apply list_elem_of_singleton in Hroot.
    + rewrite element_at_cons. simpl in Hbelow.
      assert (Hgo : forall n ks,
        (i :: p) ∈ childPaths (querySelectorAll sel) n ks ->
        n <= i /\ exists k, ks !! (i - n) = Some (Sub k) /\
          p ∈ querySelectorAll sel k).
      { intros n ks. revert n.
        induction ks as [|[s|k] ks IHk]; intros n; simpl.
        - by rewrite elem_of_nil.
        - intros Hin. destruct (IHk (S n) Hin) as (Hle & k & Hk & Hp).
          split; [lia|]. exists k. split; [|done].
          by replace (i - n) with (S (i - S n)) by lia.
        - rewrite elem_of_app, list_elem_of_fmap.
          intros [(q & Hq & Hin)|Hin].
          + injection Hq as -> ->. split; [lia|]. exists k.
            by rewrite Nat.sub_diag.
          + destruct (IHk (S n) Hin) as (Hle & k' & Hk & Hp).
            split; [lia|]. exists k'. split; [|done].
            by replace (i - n) with (S (i - S n)) by lia. }
      destruct (Hgo 0 children Hbelow) as (_ & k & Hk & Hp).
      rewrite Nat.sub_0_r in Hk. rewrite Hk. by apply IH.
Qed.

Lemma querySelector_matches sel root p :
  querySelector sel root = Some p ->
  exists el, element_at root p = Some el /\ sel el = true.
Proof.
  unfold querySelector. intros Hhead.
  apply querySelectorAll_matches. apply head_Some_elem_of. done.
Qed.








End TreeFacts.

(** ** Switching language *)

Section SwitchFacts.
Context `{JsNumber}.

(** A call of the loader returns, and leaves the page, the stored
    preference and the network as they are. *)
Lemma loadTranslation_returns fuel lang w :
  exists bundle w',
    loadTranslation (S (S fuel)) lang w = Some (Return bundle, w') /\
    document w' = document w /\ localStorage w' = localStorage w.
Proof.
  destruct (truthy (cached lang w)) eqn:Hhit.
  { eexists _, _. by rewrite loadTranslation_hit. }
  destruct (fetch_outcome lang w) as [Hfail|[data Hok]].
  - destruct (decide (lang = DEFAULT_LANG)) as [->|Hlang].
    + destruct (loadTranslation_default_fails (S fuel) w Hhit Hfail)
        as [err ->].
      by eexists _, _.
    + destruct (loadTranslation_other_fails (S fuel) lang w Hlang Hhit Hfail)
        as [err ->].
      destruct (loadTranslation_default_returns fuel
                  (console_warn (failureMessage lang) err (requested lang w)))
        as (bundle & w' & Hdef & Hdoc & Hstore & _).
      by exists bundle, w'.
  - rewrite (loadTranslation_miss_succeeds _ _ _ data) by done.
    by eexists _, _.
Qed.

Lemma switchLanguage_unfold fuel lang w translations w2 :
  includes SUPPORTED_LANGS lang = true ->
  loadTranslation fuel lang
    (with_localStorage (setItem (localStorage w) I18N_STORAGE_KEY lang) w)
  = Some (Return translations, w2) ->
  switchLanguage fuel lang w
  = Some (Return tt,
          with_document
            (pickedDocument lang (appliedDocument translations (document w2)))
            w2).
Proof.
  intros Hin Hload. unfold switchLanguage. rewrite Hin, Hload. simpl.
  by rewrite applyTranslations_returns, updatePicker_returns.
Qed.

(** C7. For a code that is not supported, [switchLanguage] returns at
    once and the whole state is as before: the stored preference, the
    cache, the document with its picker and its [lang] attribute, and also
    the request log and the console. *)
Theorem switchLanguage_unsupported (fuel : nat) (lang : string) (w : World) :
  lang ∉ SUPPORTED_LANGS ->
  switchLanguage fuel lang w = Some (Return tt, w).
Proof.
  intros Hout. unfold switchLanguage.
  by rewrite (proj2 (includes_not_elem_of _ _) Hout).
Qed.



End SwitchFacts.

(** * Further properties of the module *)

Section MoreFacts.
Context `{JsNumber}.

(** ** Key paths *)

Lemma split_single sep key :
  (forall a b, key <> a +:+ String sep b) -> split sep key = [key].
Proof.
  induction key as [|c key IH]; intros Hno; [done|]. simpl.
  destruct (Ascii.eqb c sep) eqn:Hc.
  - apply Ascii.eqb_eq in Hc as ->. by destruct (Hno EmptyString key).
  - rewrite IH; [done|]. intros a b ->. by apply (Hno (String c a) b).
Qed.

Lemma split_segment sep key rest :
  (forall a b, key <> a +:+ String sep b) ->
  split sep (key +:+ String sep rest) = key :: split sep rest.
Proof.
  induction key as [|c key IH]; intros Hno.
  - rewrite append_nil. simpl. by rewrite Ascii.eqb_refl.
  - rewrite append_cons. simpl.
    destruct (Ascii.eqb c sep) eqn:Hc.
    + apply Ascii.eqb_eq in Hc as ->. by destruct (Hno EmptyString key).
    + rewrite IH; [done|]. intros a b ->. by apply (Hno (String c a) b).
Qed.

(** X1. A key path is resolved segment by segment: a key without a dot
    reads that one property (the empty key reads the property named by
    the empty string, not the bundle itself), and a first segment
    followed by a dot and a rest reads the rest in what the first
    segment gives. *)
Theorem getNestedValue_segments (obj : JsValue) (key : string) :
  (forall a b, key <> a +:+ "." +:+ b) ->
  getNestedValue obj key = optional_get obj key /\
  forall rest,
    getNestedValue obj (key +:+ "." +:+ rest)
    = getNestedValue (optional_get obj key) rest.
Proof.
  intros Hno. unfold getNestedValue. split.
  - by rewrite split_single.
  - intros rest.
    change (key +:+ "." +:+ rest) with (key +:+ String "." rest).
    by rewrite split_segment.
Qed.

(** ** Detection *)

Lemma matchBrowserLang_none locale :
  matchBrowserLang SUPPORTED_LANGS locale = None ->
  unmatched SUPPORTED_LANGS locale.
Proof.
  unfold matchBrowserLang.
  destruct (includes SUPPORTED_LANGS locale) eqn:Hin; [discriminate|].
  destruct (find _ SUPPORTED_LANGS) as [m|] eqn:Hfind.
  - apply find_some in Hfind as [Hm _]. apply list_elem_of_In in Hm.
    by rewrite (supported_truthy m Hm).
  - intros _. split; [by apply includes_not_elem_of|].
    intros code Hcode Hrel. apply prefixMatches_related in Hrel.
    apply list_elem_of_In in Hcode.
    by rewrite (find_none _ _ Hfind code Hcode) in Hrel.
Qed.

Lemma scanBrowserLangs_none langs :
  scanBrowserLangs SUPPORTED_LANGS langs = None
  <-> forall b, b ∈ langs -> unmatched SUPPORTED_LANGS b.
Proof.
  induction langs as [|l langs IH]; simpl.
  - split; [|done]. intros _ b Hb. by apply elem_of_nil in Hb.
  - destruct (matchBrowserLang SUPPORTED_LANGS l) as [m|] eqn:Hl.
    + split; [discriminate|]. intros Hall.
      rewrite matchBrowserLang_unmatched in Hl; [done|]. apply Hall. by left.
    + rewrite IH. split.
      * intros Hrest b Hb. apply elem_of_cons in Hb as [->|Hb];
          [by apply matchBrowserLang_none|by apply Hrest].
      * intros Hall b Hb. apply Hall. by right.
Qed.

(** X2. [detectBrowserLang] returns [null] exactly when no browser locale
    has an exact or a prefix match, and otherwise a supported code.  An
    empty [navigator.languages] gives [null] whatever
    [navigator.language] is: the fallback to it is taken only when
    [navigator.languages] is missing, and then it is the one locale
    scanned. *)
Theorem detectBrowserLang_null (nav : Navigator) :
  (detectBrowserLang nav = None
   <-> forall b, b ∈ browserLangs nav -> unmatched SUPPORTED_LANGS b) /\
  (forall code, detectBrowserLang nav = Some code -> code ∈ SUPPORTED_LANGS) /\
  (languages nav = Some [] -> detectBrowserLang nav = None) /\
  (languages nav = None ->
   detectBrowserLang nav = matchBrowserLang SUPPORTED_LANGS (language nav)).
Proof.
  unfold detectBrowserLang, detectBrowserLangOver.
  split; [apply scanBrowserLangs_none|].
  split; [intros code; apply scanBrowserLangs_elem_of|]. split.
  - unfold browserLangs. by intros ->.
  - unfold browserLangs. intros ->. simpl.
    by destruct (matchBrowserLang SUPPORTED_LANGS (language nav)).
Qed.

(** ** The loader: what a call leaves in place *)

Lemma loadTranslation_try_cases lang w :
  (exists err, fetchFails lang w /\
     loadTranslation_try lang w = (Throw err, requested lang w)) \/
  (exists data, fetchSucceeds lang w data /\
     loadTranslation_try lang w
     = (Return data,
        with_translationCache (<[lang := data]> (translationCache w))
          (requested lang w))).
Proof.
  destruct (fetch_outcome lang w) as [Hfail|[data Hok]].
  - left. destruct (loadTranslation_try_fails _ _ Hfail) as [err Htry].
    by exists err.
  - right. exists data. split; [done|].
    by apply loadTranslation_try_succeeds.
Qed.

(** X3. Whatever the depth bound and the outcome, a call of
    [loadTranslation] keeps every truthy cache entry as it is, only adds
    to the request log and to the console, and leaves the document, the
    stored preference, the navigator and the network alone. *)
Theorem loadTranslation_keeps (fuel : nat) (lang : string) (w w' : World)
    (result : Completion JsValue) :
  loadTranslation fuel lang w = Some (result, w') ->
  (forall k v, translationCache w !! k = Some v -> truthy v = true ->
     translationCache w' !! k = Some v) /\
  (exists fetched, requests w' = requests w ++ fetched) /\
  (exists warned, console w' = console w ++ warned) /\
  document w' = document w /\ localStorage w' = localStorage w /\
  navigator w' = navigator w /\ network w' = network w.
Proof.
  revert lang w. induction fuel as [|fuel IH]; intros lang w; [done|].
  simpl. destruct (truthy (cached lang w)) eqn:Hhit.
  { intros [= <- <-]. split; [done|]. split; [by exists []; rewrite app_nil_r|].
    split; [by exists []; rewrite app_nil_r|done]. }
  destruct (loadTranslation_try_cases lang w)
    as [(err & _ & ->)|(data & _ & ->)].
  - destruct (negb (String.eqb lang DEFAULT_LANG)).
    + intros Hrec.
      destruct (IH _ _ Hrec)
        as (Hcache & [fetched Hreq] & [warned Hcon] & Hdoc & Hstore
            & Hnav & Hnet).
      split; [exact Hcache|]. simpl in *.
      split; [exists (bundleUrl lang :: fetched);
              by rewrite Hreq, <- app_assoc|].
      split; [exists ((failureMessage lang, err) :: warned);
              by rewrite Hcon, <- app_assoc|done].
    + intros [= <- <-]. simpl. split; [done|].
      split; [by eexists|]. split; [by eexists|done].
  - intros [= <- <-]. simpl. split.
    + intros k v Hk Hv. destruct (decide (lang = k)) as [->|Hne].
      * unfold cached in Hhit. rewrite Hk in Hhit. simpl in Hhit. congruence.
      * by rewrite lookup_insert_ne.
    + split; [by eexists|]. split; [by exists []; rewrite app_nil_r|done].
Qed.

(** X4. The requests of a call are for the language asked, then for the
    default language, and for nothing else; the default language is
    requested only after the request for another language has failed, no
    URL is requested twice, and there is no warning without a failed
    request. *)
Theorem loadTranslation_requests (fuel : nat) (lang : string) (w : World) :
  exists bundle w' fetched warned,
    loadTranslation (S (S fuel)) lang w = Some (Return bundle, w') /\
    requests w' = requests w ++ fetched /\
    console w' = console w ++ warned /\
    ((fetched = [] /\ warned = [] /\ w' = w) \/
     (fetched = [bundleUrl lang] /\ warned = [] /\ fetchSucceeds lang w bundle) \/
     (fetched = [bundleUrl lang] /\ length warned = 1 /\ fetchFails lang w) \/
     (fetched = [bundleUrl lang; bundleUrl DEFAULT_LANG] /\
      lang <> DEFAULT_LANG /\ fetchFails lang w /\
      1 <= length warned <= 2)).
Proof.
  destruct (truthy (cached lang w)) eqn:Hhit.
  { exists (cached lang w), w, [], []. rewrite loadTranslation_hit by done.
    rewrite !app_nil_r. repeat split; try done. by left. }
  destruct (fetch_outcome lang w) as [Hfail|[data Hok]].
  2:{ rewrite (loadTranslation_miss_succeeds _ _ _ data) by done.
      eexists data, _, [bundleUrl lang], []. rewrite app_nil_r.
      repeat split; try done. right. by left. }
  destruct (decide (lang = DEFAULT_LANG)) as [->|Hlang].
  { destruct (loadTranslation_default_fails (S fuel) w Hhit Hfail)
      as [err ->].
    eexists _, _, [bundleUrl DEFAULT_LANG], [_]. repeat split; try done.
    right. right. by left. }
  destruct (loadTranslation_other_fails (S fuel) lang w Hlang Hhit Hfail)
    as [err ->].
  set (w1 := console_warn (failureMessage lang) err (requested lang w)).
  destruct (truthy (cached DEFAULT_LANG w1)) eqn:Hhit1.
  { rewrite loadTranslation_hit by done.
    eexists _, _, [bundleUrl lang], [_]. repeat split; try done.
    right. right. by left. }
  destruct (fetch_outcome DEFAULT_LANG w1) as [Hfail1|[data Hok1]].
  - destruct (loadTranslation_default_fails fuel w1 Hhit1 Hfail1)
      as [err1 ->].
    eexists _, _, [bundleUrl lang; bundleUrl DEFAULT_LANG], [_; _].
    split; [done|]. split; [simpl; by rewrite <- app_assoc|].
    split; [simpl; by rewrite <- app_assoc|].
    right. right. right. repeat split; try done; simpl; lia.
  - rewrite (loadTranslation_miss_succeeds _ _ _ data) by done.
    eexists _, _, [bundleUrl lang; bundleUrl DEFAULT_LANG], [_].
    split; [done|]. split; [simpl; by rewrite <- app_assoc|].
    split; [done|].
    right. right. right. repeat split; try done; simpl; lia.
Qed.

(** ** The preference that a switch stores *)

Lemma resolveLanguage_stored storage nav lang :
  getItem storage I18N_STORAGE_KEY = Some lang -> lang ∈ SUPPORTED_LANGS ->
  resolveLanguage storage nav = lang.
Proof.
  intros Hstored Hin. unfold resolveLanguage, resolveLanguageOver.
  rewrite Hstored. unfold storedIsSupported.
  by rewrite (supported_truthy _ Hin), (proj2 (includes_elem_of _ _) Hin).
Qed.

(** X5. What [switchLanguage] stores is what [resolveLanguage] then
    returns: after a switch to a supported code, the code is resolved
    whatever the browser locales are, as on the next load of the page. *)
Theorem switchLanguage_then_resolve (fuel : nat) (lang : string) (w : World) :
  lang ∈ SUPPORTED_LANGS ->
  exists w',
    switchLanguage (S (S fuel)) lang w = Some (Return tt, w') /\
    forall nav, resolveLanguage (localStorage w') nav = lang.
Proof.
  intros Hin.
  destruct (loadTranslation_returns fuel lang
              (with_localStorage
                 (setItem (localStorage w) I18N_STORAGE_KEY lang) w))
    as (translations & w2 & Hload & Hdoc & Hstore).
  eexists. split.
  - by apply (switchLanguage_unfold _ _ _ translations w2);
      [apply includes_elem_of|].
  - intros nav. apply resolveLanguage_stored; [|done]. simpl.
    rewrite Hstore. apply lookup_insert_eq.
Qed.

(** ** A bundle without the keys of the page *)

Lemma nullish_not_truthy v : nullish v = true -> truthy v = false.
Proof. by destruct v. Qed.








(** ** What [applyTranslations] never touches *)



Lemma mapTree_shape sel g el :
  tagName (mapTree sel g el) = tagName (guarded sel g el) /\
  attributes (mapTree sel g el) = attributes (guarded sel g el) /\
  classList (mapTree sel g el) = classList (guarded sel g el).
Proof. by rewrite mapTree_unfold. Qed.



(** ** The picker, updated again *)

Lemma classList_toggle_other token token' force e :
  token' <> token ->
  has_class token' (classList_toggle token force e) = has_class token' e.
Proof.
  intros Hne. unfold has_class, classList_toggle. simpl.
  destruct (bool_decide (token ∈ classList e)); destruct force; try done.
  - apply bool_decide_ext. rewrite list_elem_of_filter. tauto.
  - apply bool_decide_ext. rewrite elem_of_app, list_elem_of_singleton. tauto.
Qed.

Lemma classList_toggle_twice token force e :
  classList_toggle token force (classList_toggle token force e)
  = classList_toggle token force e.
Proof.
  pose proof (classList_toggle_token token force e) as Hin.
  unfold has_class in Hin. unfold classList_toggle at 1.
  rewrite Hin. by destruct force, e.
Qed.

Lemma optionMarked_idem lang el :
  guarded (has_class "lang-option") (optionMarked lang)
    (guarded (has_class "lang-option") (optionMarked lang) el)
  = guarded (has_class "lang-option") (optionMarked lang) el.
Proof.
  unfold guarded.
  destruct (has_class "lang-option" el) eqn:Hsel; [|by rewrite Hsel].
  assert (Hsel' : has_class "lang-option" (optionMarked lang el) = true).
  { unfold optionMarked.
    by rewrite has_class_setAttribute, classList_toggle_other. }
  rewrite Hsel'. unfold optionMarked at 1.
  rewrite (optionMarked_keeps "data-lang") by done.
  unfold optionMarked.
  set (active := bool_decide (getAttribute "data-lang" el = Some lang)).
  destruct el as [tag attrs classes children].
  unfold setAttribute. simpl.
  rewrite insert_insert_eq. f_equal.
  change (classList (classList_toggle "active" active
                       (classList_toggle "active" active
                          (mkElement tag attrs classes children)))
          = classList (classList_toggle "active" active
                         (mkElement tag attrs classes children))).
  by rewrite classList_toggle_twice.
Qed.

Lemma optionMarked_setAttribute lang name value el :
  name <> "aria-current" -> name <> "data-lang" ->
  guarded (has_class "lang-option") (optionMarked lang)
    (setAttribute name value el)
  = setAttribute name value
      (guarded (has_class "lang-option") (optionMarked lang) el).
Proof.
  intros Hcurrent Hlang. unfold guarded. rewrite has_class_setAttribute.
  destruct (has_class "lang-option" el); [|done]. unfold optionMarked.
  rewrite (setAttribute_keeps "data-lang" name value) by done.
  rewrite (setAttribute_comm name "aria-current") by done.
  by destruct el.
Qed.

Lemma pickedDocument_idem lang doc :
  pickedDocument lang (pickedDocument lang doc) = pickedDocument lang doc.
Proof.
  unfold pickedDocument. cbn [documentElement title]. f_equal.
  set (v := if String.eqb lang "pt-BR" then "pt-BR" else lang).
  rewrite <- (update_at_nil (setAttribute "lang" v)
                (mapTree _ _ (documentElement doc))).
  rewrite mapTree_update_at;
    [|apply has_class_attributeSelector|apply optionMarked_attributeStep
     |apply setAttribute_attributeStep
     |intros el; by apply optionMarked_setAttribute].
  rewrite mapTree_idem;
    [|apply has_class_attributeSelector|apply optionMarked_attributeStep
     |apply optionMarked_idem].
  rewrite !update_at_nil. apply setAttribute_twice.
Qed.

(** X9. [updatePicker] is idempotent: called again with the same language
    on the document it has returned, it returns that document.  So the
    call that [initI18n] makes after the picker has been built for the
    resolved language, and a click on the control that is already active,
    leave the picker as it is. *)
Theorem updatePicker_idempotent (lang : string) (doc : Document) :
  exists doc1,
    updatePicker lang doc = Return doc1 /\
    updatePicker lang doc1 = Return doc1.
Proof.
  exists (pickedDocument lang doc). rewrite !updatePicker_returns.
  by rewrite pickedDocument_idem.
Qed.

(** X10. [updatePicker] changes no text and no structure: an element of
    the document it returns is at the path of an element of the document
    it was given, with the same tag and the same text nodes at the same
    places.  Apart from the [lang] attribute of the root, it touches only
    the [aria-current] attribute and the class [active], and these only on
    the elements of class [lang-option]. *)
Theorem updatePicker_frame (lang : string) (doc : Document) :
  exists doc1,
    updatePicker lang doc = Return doc1 /\
    title doc1 = title doc /\
    forall p el1,
      element_at (documentElement doc1) p = Some el1 ->
      exists el,
        element_at (documentElement doc) p = Some el /\
        tagName el1 = tagName el /\
        (forall i s, childNodes el1 !! i = Some (Text s)
                     <-> childNodes el !! i = Some (Text s)) /\
        (forall name, name <> "aria-current" -> (name <> "lang" \/ p <> []) ->
           getAttribute name el1 = getAttribute name el) /\
        (forall token, token <> "active" ->
           has_class token el1 = has_class token el) /\
        (has_class "lang-option" el = false ->
           classList el1 = classList el /\
           getAttribute "aria-current" el1 = getAttribute "aria-current" el).
Proof.
  exists (pickedDocument lang doc).
  split; [apply updatePicker_returns|]. split; [done|].
  set (v := if String.eqb lang "pt-BR" then "pt-BR" else lang).
  set (marked := mapTree (has_class "lang-option") (optionMarked lang)).
  assert (Hmarked : forall p el1,
    element_at (marked (documentElement doc)) p = Some el1 ->
    exists el,
      element_at (documentElement doc) p = Some el /\
      tagName el1 = tagName el /\
      (forall i s, childNodes el1 !! i = Some (Text s)
                   <-> childNodes el !! i = Some (Text s)) /\
      (forall name, name <> "aria-current" ->
         getAttribute name el1 = getAttribute name el) /\
      (forall token, token <> "active" ->
         has_class token el1 = has_class token el) /\
      (has_class "lang-option" el = false ->
         classList el1 = classList el /\
         getAttribute "aria-current" el1 = getAttribute "aria-current" el)).
  { intros p el1. unfold marked. rewrite element_at_mapTree.
    destruct (element_at (documentElement doc) p) as [el|]; [|done].
    intros [= <-]. exists el. split; [done|].
    destruct (mapTree_shape (has_class "lang-option") (optionMarked lang) el)
      as (Htag & Hattrs & Hclasses).
    set (G := guarded (has_class "lang-option") (optionMarked lang)) in *.
    assert (Hclass : forall token,
      has_class token (mapTree (has_class "lang-option") (optionMarked lang) el)
      = has_class token (G el)).
    { intros token. by rewrite mapTree_unfold. }
    split; [|split; [|split; [|split]]].
    - rewrite Htag. unfold G, guarded. by destruct (has_class _ el).
    - intros i s. rewrite mapTree_unfold. simpl childNodes.
      rewrite lookup_map_childMap.
      destruct (childNodes el !! i) as [[x|k]|]; simpl; split; congruence.
    - intros name Hname. unfold getAttribute. rewrite Hattrs.
      apply (guarded_keeps name (has_class "lang-option") (optionMarked lang)
               (optionMarked_keeps name lang Hname) el).
    - intros token Htoken. rewrite Hclass. unfold G, guarded.
      destruct (has_class "lang-option" el); [|done]. unfold optionMarked.
      by rewrite has_class_setAttribute, classList_toggle_other.
    - intros Hno. unfold getAttribute. rewrite Hclasses, Hattrs.
      unfold G, guarded. by rewrite Hno. }
  intros p el1. unfold pickedDocument. cbn [documentElement].
  fold v. fold marked. destruct p as [|i p].
  - intros [= <-].
    destruct (Hmarked [] (marked (documentElement doc)) eq_refl)
      as (el & Hel & Htag & Htext & Hattrs & Hclasses & Hplain).
    exists el. split; [done|]. split; [done|]. split; [done|].
    split; [|split; [done|]].
    + intros name Hname [Hlang|Hroot]; [|done].
      rewrite getAttribute_setAttribute. case_decide; [done|].
      by apply Hattrs.
    + intros Hno. destruct (Hplain Hno) as [Hcl Hcur]. split; [done|].
      rewrite getAttribute_setAttribute. by case_decide.
  - rewrite element_at_attributeStep by apply setAttribute_attributeStep.
    intros Hel1.
    destruct (Hmarked _ _ Hel1)
      as (el & Hel & Htag & Htext & Hattrs & Hclasses & Hplain).
    exists el. repeat split; try done; try apply Htext; try by apply Hplain.
    intros name Hname _. by apply Hattrs.
Qed.

(** ** The picker that [createLanguagePicker] builds *)

Lemma pickerButton_eq cur lang :
  pickerButton cur lang
  = mkElement "button"
      (<["aria-current" := if String.eqb lang cur then "true" else "false"]>
         (<["aria-label" := default "undefined" (LANG_NAMES !! lang)]>
            (<["data-lang" := lang]> ∅)))
      (if String.eqb lang cur then ["lang-option"; "active"]
       else ["lang-option"])
      (textNodes (default EmptyString (LANG_LABELS !! lang))).
Proof. unfold pickerButton. by destruct (String.eqb lang cur). Qed.

Lemma desktopPicker_eq cur :
  desktopPicker cur
  = mkElement "div"
      (<["aria-label" := "Language selection"]> (<["role" := "group"]> ∅))
      ["lang-picker"]
      (map (fun lang => Sub (pickerButton cur lang)) SUPPORTED_LANGS).
Proof. reflexivity. Qed.

Lemma pickerButton_data_lang cur lang :
  getAttribute "data-lang" (pickerButton cur lang) = Some lang.
Proof.
  rewrite pickerButton_eq. unfold getAttribute. simpl.
  rewrite !lookup_insert_ne by done. apply lookup_insert_eq.
Qed.

Lemma pickerButton_is_option cur lang :
  has_class "lang-option" (pickerButton cur lang) = true.
Proof. rewrite pickerButton_eq. by destruct (String.eqb lang cur). Qed.

Lemma pickerButton_active cur lang :
  has_class "active" (pickerButton cur lang) = true <-> lang = cur.
Proof.
  rewrite pickerButton_eq, <- String.eqb_eq.
  by destruct (String.eqb lang cur).
Qed.

Lemma optionMarked_pickerButton cur lang' lang :
  guarded (has_class "lang-option") (optionMarked lang')
    (pickerButton cur lang)
  = pickerButton lang' lang.
Proof.
  unfold guarded. rewrite pickerButton_is_option. unfold optionMarked.
  rewrite pickerButton_data_lang.
  assert (Hactive : bool_decide (Some lang = Some lang') = String.eqb lang lang').
  { destruct (String.eqb lang lang') eqn:Heq.
    - apply String.eqb_eq in Heq as ->. by apply bool_decide_eq_true.
    - apply String.eqb_neq in Heq. apply bool_decide_eq_false. congruence. }
  rewrite Hactive, !pickerButton_eq. unfold setAttribute, classList_toggle.
  simpl. rewrite insert_insert_eq. f_equal.
  by destruct (String.eqb lang cur), (String.eqb lang lang').
Qed.

Lemma mapTree_desktopPicker cur lang :
  mapTree (has_class "lang-option") (optionMarked lang) (desktopPicker cur)
  = desktopPicker lang.
Proof.
  rewrite !desktopPicker_eq, mapTree_unfold. simpl. f_equal.
  all: rewrite !mapTree_unfold, !optionMarked_pickerButton;
    by rewrite !pickerButton_eq, ?map_childMap_textNodes.
Qed.

(** X11. After [updatePicker], a picker that [createLanguagePicker] has
    built for any language is exactly the picker that it would have built
    for the language now active: the two functions agree on the classes
    and on [aria-current] of every control. *)
Theorem updatePicker_rebuilds (cur lang : string) (doc : Document)
    (i : nat) (p : list nat) :
  element_at (documentElement doc) (i :: p) = Some (desktopPicker cur) ->
  exists doc1,
    updatePicker lang doc = Return doc1 /\
    element_at (documentElement doc1) (i :: p) = Some (desktopPicker lang).
Proof.
  intros Hel. exists (pickedDocument lang doc).
  split; [apply updatePicker_returns|].
  unfold pickedDocument. cbn [documentElement].
  rewrite element_at_attributeStep by apply setAttribute_attributeStep.
  by rewrite element_at_mapTree, Hel, <- (mapTree_desktopPicker cur lang).
Qed.

(** X12. The picker built at start-up has one control for each supported
    language, in the order of [SUPPORTED_LANGS], and exactly one of them
    is active, with [aria-current] set: the control of the language that
    [resolveLanguage] returns. *)
Theorem desktopPicker_one_active (storage : gmap string string)
    (nav : Navigator) :
  let cur := resolveLanguage storage nav in
  childNodes (desktopPicker cur)
  = map (fun lang => Sub (pickerButton cur lang)) SUPPORTED_LANGS /\
  NoDup SUPPORTED_LANGS /\ cur ∈ SUPPORTED_LANGS /\
  forall lang,
    getAttribute "data-lang" (pickerButton cur lang) = Some lang /\
    (has_class "active" (pickerButton cur lang) = true <-> lang = cur) /\
    (getAttribute "aria-current" (pickerButton cur lang) = Some "true"
     <-> lang = cur).
Proof.
  intros cur. split; [by rewrite desktopPicker_eq|].
  split.
  { unfold SUPPORTED_LANGS.
    repeat (apply NoDup_cons; split;
              [rewrite ?elem_of_cons, elem_of_nil; intros Hin;
               repeat destruct Hin as [Hin|Hin]; done|]).
    apply NoDup_nil_2. }
  split; [apply resolveLanguageOver_elem_of; by left|].
  intros lang. split; [apply pickerButton_data_lang|].
  split; [apply pickerButton_active|].
  rewrite pickerButton_eq, <- String.eqb_eq. unfold getAttribute. simpl.
  rewrite lookup_insert_eq. by destruct (String.eqb lang cur).
Qed.

(** ** Where [createLanguagePicker] puts the pickers *)

Lemma childPaths_elem_of sel q :
  forall ks n,
    q ∈ childPaths (querySelectorAll sel) n ks ->
    exists i r k, q = i :: r /\ n <= i /\ ks !! (i - n) = Some (Sub k) /\
      r ∈ querySelectorAll sel k.
Proof.
  induction ks as [|[s|k] ks IH]; intros n; simpl.
  - by rewrite elem_of_nil.
  - intros Hin. destruct (IH (S n) Hin) as (i & r & k & -> & Hle & Hk & Hr).
    exists i, r, k. split; [done|]. split; [lia|]. split; [|done].
    by replace (i - n) with (S (i - S n)) by lia.
  - rewrite elem_of_app, list_elem_of_fmap.
    intros [(r & -> & Hr)|Hin].
    + exists n, r, k. split; [done|]. split; [lia|].
      by rewrite Nat.sub_diag.
    + destruct (IH (S n) Hin) as (i & r & k' & -> & Hle & Hk & Hr).
      exists i, r, k'. split; [done|]. split; [lia|]. split; [|done].
      by replace (i - n) with (S (i - S n)) by lia.
Qed.

Lemma querySelectorIn_matches sel e q :
  querySelectorIn sel e = Some q ->
  exists i r k el,
    q = i :: r /\ childNodes e !! i = Some (Sub k) /\
    element_at k r = Some el /\ sel el = true.
Proof.
  unfold querySelectorIn. intros Hhead. apply head_Some_elem_of in Hhead.
  destruct (childPaths_elem_of _ _ _ _ Hhead) as (i & r & k & -> & _ & Hk & Hr).
  rewrite Nat.sub_0_r in Hk.
  destruct (querySelectorAll_matches _ _ _ Hr) as (el & Hel & Hsel).
  by exists i, r, k, el.
Qed.

(** X13. [createLanguagePicker] throws exactly when the first element of
    class [nav-actions] has an element of class [theme-toggle] below it
    and the first such element is not one of its own children:
    [insertBefore] refuses a reference node that is not a child.  The
    page is then as before, and [initI18n] fails with the same error
    before it has requested or translated anything. *)
Theorem createLanguagePicker_throws (w : World) :
  ((exists err, fst (createLanguagePicker w) = Throw err)
   <-> exists p navActions i j q,
         querySelector (has_class "nav-actions")
           (documentElement (document w)) = Some p /\
         element_at (documentElement (document w)) p = Some navActions /\
         querySelectorIn (has_class "theme-toggle") navActions
         = Some (i :: j :: q)) /\
  (forall err,
     fst (createLanguagePicker w) = Throw err ->
     snd (createLanguagePicker w) = w /\
     forall fuel, initI18n fuel w = Some (Throw err, w)).
Proof.
  split.
  - unfold createLanguagePicker, insertDesktopPicker.
    destruct (querySelector (has_class "nav-actions") _) as [p|] eqn:Hp.
    2:{ split; [by intros [err Herr]|]. by intros (? & ? & ? & ? & ? & ? & _). }
    destruct (element_at _ p) as [navActions|] eqn:Hnav.
    2:{ split; [by intros [err Herr]|].
        intros (? & ? & ? & ? & ? & [= <-] & Hnav' & _). congruence. }
    destruct (querySelectorIn _ navActions) as [[|i [|j q]]|] eqn:Hq.
    + destruct (querySelectorIn_matches _ _ _ Hq) as (? & ? & ? & ? & ? & _).
      done.
    + split; [by intros [err Herr]|].
      intros (? & ? & ? & ? & ? & [= <-] & Hnav' & Hq').
      rewrite Hnav in Hnav'. injection Hnav' as <-. congruence.
    + split; [|by eexists]. intros _. by exists p, navActions, i, j, q.
    + split; [by intros [err Herr]|].
      intros (? & ? & ? & ? & ? & [= <-] & Hnav' & Hq').
      rewrite Hnav in Hnav'. injection Hnav' as <-. congruence.
  - intros err Hthrow. unfold initI18n.
    destruct (createLanguagePicker w) as [[[]|err'] w'] eqn:Hcreate;
      simpl in Hthrow; [done|]. injection Hthrow as ->.
    assert (Hw : w' = w).
    { unfold createLanguagePicker in Hcreate.
      destruct (insertDesktopPicker _ _); by injection Hcreate. }
    by subst.
Qed.

(** ** Start-up *)

Lemma createLanguagePicker_state w result w1 :
  createLanguagePicker w = (result, w1) ->
  localStorage w1 = localStorage w /\ navigator w1 = navigator w /\
  translationCache w1 = translationCache w /\ network w1 = network w /\
  requests w1 = requests w /\ console w1 = console w /\
  title (document w1) = title (document w).
Proof.
  unfold createLanguagePicker.
  destruct (insertDesktopPicker _ _); by intros [= <- <-].
Qed.



Lemma with_localStorage_same w : with_localStorage (localStorage w) w = w.
Proof. by destruct w. Qed.

(** X15. With a supported code as the stored preference, start-up is the
    building of the picker followed by a switch to that code: storing the
    code again changes nothing, and the rest of [initI18n] is the body of
    [switchLanguage]. *)
Theorem initI18n_stored (fuel : nat) (lang : string) (w w1 : World) :
  getItem (localStorage w) I18N_STORAGE_KEY = Some lang ->
  lang ∈ SUPPORTED_LANGS ->
  createLanguagePicker w = (Return tt, w1) ->
  initI18n fuel w = switchLanguage fuel lang w1.
Proof.
  intros Hstored Hin Hcreate.
  destruct (createLanguagePicker_state _ _ _ Hcreate) as (Hstore1 & Hnav1 & _).
  unfold initI18n, switchLanguage. rewrite Hcreate.
  rewrite (proj2 (includes_elem_of _ _) Hin). simpl.
  rewrite Hstore1, Hnav1, (resolveLanguage_stored _ _ lang) by done.
  unfold setItem. unfold getItem in Hstored.
  rewrite (insert_id _ _ _ Hstored), <- Hstore1, with_localStorage_same.
  done.
Qed.

Lemma element_at_app p :
  forall e q,
    element_at e (p ++ q)
    = match element_at e p with
      | Some el => element_at el q
      | None => None
      end.
Proof.
  induction p as [|i p IH]; intros [tag attrs classes children] q; [done|].
  rewrite <- app_comm_cons, !element_at_cons.
  destruct (children !! i) as [[s|k]|]; [done|apply IH|done].
Qed.

Lemma element_at_update_at_here f p :
  forall e el,
    element_at e p = Some el -> element_at (update_at f e p) p = Some (f el).
Proof.
  induction p as [|i p IH]; intros [tag attrs classes children] el.
  - by intros [= <-].
  - rewrite element_at_cons, update_at_cons.
    destruct (children !! i) as [[s|k]|] eqn:Hi; try done.
    intros Hel. rewrite element_at_cons.
    rewrite list_lookup_insert_eq by (by eapply lookup_lt_Some).
    by apply IH.
Qed.

(** After [appendChild] somewhere in the document, the element at [p] is
    the old one if the place is not at or below it. *)
Lemma element_at_appendChild c p :
  forall e q el,
    element_at e p = Some el ->
    element_at (update_at (appendChild c) e q) p = Some el \/
    exists q', q = p ++ q' /\
      element_at (update_at (appendChild c) e q) p
      = Some (update_at (appendChild c) el q').
Proof.
  induction p as [|i p IH]; intros e q el Hel.
  - injection Hel as <-. right. by exists q.
  - destruct e as [tag attrs classes children].
    rewrite element_at_cons in Hel. destruct q as [|j q].
    + left. rewrite update_at_nil. unfold appendChild.
      rewrite element_at_cons. cbn [childNodes].
      destruct (children !! i) as [c'|] eqn:Hi; [|done].
      by rewrite (lookup_app_l_Some _ _ _ _ Hi).
    + rewrite update_at_cons.
      destruct (children !! j) as [[s|k]|] eqn:Hj;
        try (left; by rewrite element_at_cons).
      rewrite element_at_cons.
      destruct (decide (i = j)) as [->|Hij].
      * rewrite list_lookup_insert_eq by (by eapply lookup_lt_Some).
        rewrite Hj in Hel.
        destruct (IH k q el Hel) as [Hsame|(q' & -> & Hin)]; [by left|].
        right. by exists q'.
      * left. by rewrite list_lookup_insert_ne.
Qed.

Lemma desktopPicker_classes cur q el :
  element_at (desktopPicker cur) q = Some el ->
  has_class "nav-mobile" el = false.
Proof.
  rewrite desktopPicker_eq. destruct q as [|i q]; [by intros [= <-]|].
  rewrite element_at_cons.
  destruct (_ !! i) as [[s|k]|] eqn:Hi; try done.
  change (map ?f ?l) with (f <$> l) in Hi.
  apply list_lookup_fmap_Some in Hi as (lang & [= ->] & _).
  rewrite pickerButton_eq. destruct q as [|j q].
  - intros [= <-]. by destruct (String.eqb lang cur).
  - rewrite element_at_cons.
    destruct (_ !! j) as [[s|k]|] eqn:Hj; try done.
    by apply textNodes_no_element in Hj.
Qed.

Lemma querySelectorAll_none sel e :
  (forall q el, element_at e q = Some el -> sel el = false) ->
  querySelectorAll sel e = [].
Proof.
  intros Hnone. destruct (querySelectorAll sel e) as [|q l] eqn:Hall; [done|].
  destruct (querySelectorAll_matches sel q e) as (el & Hel & Hsel).
  { rewrite Hall. by left. }
  by rewrite (Hnone q el Hel) in Hsel.
Qed.

Lemma childPaths_app P ks1 ks2 :
  forall n,
    childPaths P n (ks1 ++ ks2)
    = childPaths P n ks1 ++ childPaths P (n + length ks1) ks2.
Proof.
  induction ks1 as [|[s|k] ks1 IH]; intros n; simpl.
  - by rewrite Nat.add_0_r.
  - rewrite IH. by replace (S n + length ks1) with (n + S (length ks1)) by lia.
  - rewrite IH, <- app_assoc.
    by replace (S n + length ks1) with (n + S (length ks1)) by lia.
Qed.

Lemma querySelectorAll_appendChild sel c m :
  attributeSelector sel -> querySelectorAll sel c = [] ->
  forall e,
    querySelectorAll sel (update_at (appendChild c) e m)
    = querySelectorAll sel e.
Proof.
  intros Hsel Hnone. induction m as [|j m IH];
    intros [tag attrs classes children].
  - rewrite update_at_nil. unfold appendChild.
    rewrite !querySelectorAll_unfold. cbn [tagName attributes classList childNodes].
    rewrite (Hsel tag attrs classes _ children). f_equal.
    rewrite childPaths_app. simpl. by rewrite Hnone, app_nil_r.
  - rewrite update_at_cons.
    destruct (children !! j) as [[s|k]|] eqn:Hj; try done.
    rewrite !querySelectorAll_unfold. simpl. f_equal.
    + by rewrite (Hsel tag attrs classes _ children).
    + by apply (childPaths_insert _ _ _ k).
Qed.

Lemma insertBefore_lookup c i e k :
  childNodes e !! i = Some k ->
  childNodes (insertBefore c i e) !! i = Some (Sub c) /\
  childNodes (insertBefore c i e) !! S i = Some k.
Proof.
  intros Hi. unfold insertBefore. cbn [childNodes].
  assert (Hlen : length (take i (childNodes e)) = i).
  { rewrite length_take. apply lookup_lt_Some in Hi. lia. }
  split.
  - rewrite lookup_app_r by lia. by rewrite Hlen, Nat.sub_diag.
  - rewrite lookup_app_r by lia. rewrite Hlen.
    replace (S i - i) with 1 by lia. simpl.
    by rewrite lookup_drop, Nat.add_0_r.
Qed.

(** X16. When the first [.nav-actions] element has the theme toggle among
    its children, [createLanguagePicker] returns, and in the document that
    it leaves the picker built for the resolved language stands where the
    toggle was and the toggle comes right after it. *)
Theorem createLanguagePicker_desktop (w : World) (p : list nat)
    (navActions : Element) (i : nat) :
  querySelector (has_class "nav-actions") (documentElement (document w))
  = Some p ->
  element_at (documentElement (document w)) p = Some navActions ->
  querySelectorIn (has_class "theme-toggle") navActions = Some [i] ->
  exists w1 toggle,
    createLanguagePicker w = (Return tt, w1) /\
    element_at (documentElement (document w1)) (p ++ [i])
    = Some (desktopPicker (resolveLanguage (localStorage w) (navigator w))) /\
    element_at (documentElement (document w1)) (p ++ [S i]) = Some toggle /\
    has_class "theme-toggle" toggle = true.
Proof.
  intros Hp Hnav Hq. unfold createLanguagePicker, insertDesktopPicker.
  rewrite Hp, Hnav, Hq.
  set (picker := desktopPicker _).
  set (root1 := update_at (insertBefore picker i) _ p).
  destruct (querySelectorIn_matches _ _ _ Hq)
    as (i' & r & k & el & [= <- <-] & Hi & [= <-] & Hsel).
  destruct (insertBefore_lookup picker i navActions _ Hi) as [Hnew Hold].
  assert (Hpicker : element_at root1 (p ++ [i]) = Some picker).
  { unfold root1.
    rewrite element_at_app, (element_at_update_at_here _ _ _ _ Hnav).
    cbn [element_at]. by rewrite Hnew. }
  assert (Htoggle : element_at root1 (p ++ [S i]) = Some k).
  { unfold root1.
    rewrite element_at_app, (element_at_update_at_here _ _ _ _ Hnav).
    cbn [element_at]. by rewrite Hold. }
  unfold appendMobilePicker.
  destruct (querySelector (has_class "nav-mobile") root1) as [m|] eqn:Hm;
    cbn [document documentElement with_document];
    [|by eexists _, k].
  destruct (querySelector_matches _ _ _ Hm) as (mobileNav & Hmobile & Hclass).
  destruct (element_at_appendChild picker _ root1 m _ Htoggle)
    as [Hsame|(q' & -> & Hin)].
  - eexists _, k. split; [done|]. split; [|done].
    destruct (element_at_appendChild picker _ root1 m _ Hpicker)
      as [Hsame'|(q' & -> & _)]; [done|].
    rewrite element_at_app, Hpicker in Hmobile.
    by rewrite (desktopPicker_classes _ _ _ Hmobile) in Hclass.
  - eexists _, _. split; [done|]. split; [|split; [exact Hin|]].
    + destruct (element_at_appendChild picker _ root1 ((p ++ [S i]) ++ q') _
                  Hpicker) as [Hsame'|(q'' & Heq & _)]; [done|].
      rewrite <- !app_assoc in Heq. apply app_inv_head in Heq.
      injection Heq. lia.
    + unfold has_class in *. by rewrite update_at_classList.
Qed.

(** X17. When [createLanguagePicker] has returned, the first element of
    class [nav-mobile] of the document, if there is one, has a copy of
    the picker as its last child: the picker is appended to the mobile
    navigation whether or not the page has a place for the desktop
    one. *)
Theorem createLanguagePicker_mobile (w w1 : World) (m : list nat) :
  createLanguagePicker w = (Return tt, w1) ->
  querySelector (has_class "nav-mobile") (documentElement (document w1))
  = Some m ->
  exists mobileNav,
    element_at (documentElement (document w1)) m = Some mobileNav /\
    has_class "nav-mobile" mobileNav = true /\
    last (childNodes mobileNav)
    = Some (Sub (desktopPicker
                   (resolveLanguage (localStorage w) (navigator w)))).
Proof.
  unfold createLanguagePicker.
  destruct (insertDesktopPicker _ _) as [root1|err]; [|done].
  intros [= <-]. cbn [document documentElement with_document].
  set (picker := desktopPicker _). unfold appendMobilePicker.
  destruct (querySelector (has_class "nav-mobile") root1) as [m1|] eqn:Hm1.
  - unfold querySelector.
    rewrite querySelectorAll_appendChild;
      [|apply has_class_attributeSelector
       |apply querySelectorAll_none, desktopPicker_classes].
    fold (querySelector (has_class "nav-mobile") root1). rewrite Hm1.
    intros [= <-].
    destruct (querySelector_matches _ _ _ Hm1) as (mobileNav & Hmobile & Hclass).
    exists (appendChild picker mobileNav).
    split; [by apply element_at_update_at_here|]. split; [done|].
    unfold appendChild. cbn [childNodes]. apply last_snoc.
  - intros Hm. congruence.
Qed.

(** ** The theme toggle *)

Lemma getInitialTheme_cases pl storage :
  getInitialTheme pl storage = "light" \/ getInitialTheme pl storage = "dark".
Proof.
  unfold getInitialTheme. destruct (getItem storage THEME_STORAGE_KEY) as [s|].
  - destruct (String.eqb s "light") eqn:Hl.
    { apply String.eqb_eq in Hl. by left. }
    destruct (String.eqb s "dark") eqn:Hd.
    { apply String.eqb_eq in Hd. by right. }
    simpl. destruct pl; [by left|by right].
  - destruct pl; [by left|by right].
Qed.

Lemma getInitialTheme_stored pl storage theme :
  getItem storage THEME_STORAGE_KEY = Some theme ->
  theme = "light" \/ theme = "dark" ->
  getInitialTheme pl storage = theme.
Proof. unfold getInitialTheme. by intros -> [->| ->]. Qed.

(** X18. [getInitialTheme] returns ["light"] or ["dark"] and nothing
    else.  A stored value is returned when it is one of the two; any
    other stored value, and a missing one, leaves the choice to the
    colour scheme that the system prefers. *)
Theorem getInitialTheme_valid (prefersLight : bool)
    (storage : gmap string string) :
  (getInitialTheme prefersLight storage = "light" \/
   getInitialTheme prefersLight storage = "dark") /\
  (forall stored,
     getItem storage THEME_STORAGE_KEY = Some stored ->
     stored = "light" \/ stored = "dark" ->
     getInitialTheme prefersLight storage = stored) /\
  ((forall stored,
      getItem storage THEME_STORAGE_KEY = Some stored ->
      stored <> "light" /\ stored <> "dark") ->
   getInitialTheme prefersLight storage
   = if prefersLight then "light" else "dark").
Proof.
  split; [apply getInitialTheme_cases|].
  split; [intros stored; apply getInitialTheme_stored|].
  unfold getInitialTheme.
  destruct (getItem storage THEME_STORAGE_KEY) as [s|]; [|done].
  intros Hne. destruct (Hne s eq_refl) as [Hl Hd].
  apply String.eqb_neq in Hl, Hd. by rewrite Hl, Hd.
Qed.

Lemma labelled_keeps name theme :
  name <> "aria-label" -> keepsAttribute name (labelled theme).
Proof.
  intros Hne el. unfold labelled. by apply setAttribute_keeps.
Qed.

Lemma themeLabel_setAttribute theme name value el :
  name <> "data-aria-light" -> name <> "data-aria-dark" ->
  themeLabel theme (Some (setAttribute name value el))
  = themeLabel theme (Some el).
Proof.
  intros Hl Hd. unfold themeLabel. simpl.
  rewrite !getAttribute_setAttribute.
  destruct (decide (name = "data-aria-light")); [done|].
  by destruct (decide (name = "data-aria-dark")).
Qed.

Lemma applyTheme_data_theme btn theme w :
  getAttribute "data-theme" (documentElement (document (applyTheme btn theme w)))
  = Some theme.
Proof.
  unfold applyTheme. cbn [document documentElement with_root with_document].
  destruct btn as [p|].
  - rewrite update_at_getAttribute by (by apply labelled_keeps).
    rewrite getAttribute_setAttribute. by destruct (decide _).
  - rewrite getAttribute_setAttribute. by destruct (decide _).
Qed.

Lemma applyTheme_stored btn theme w :
  localStorage (applyTheme btn theme w)
  = <[THEME_STORAGE_KEY := theme]> (localStorage w).
Proof. reflexivity. Qed.

Lemma resolveLanguage_other_key storage nav key value :
  key <> I18N_STORAGE_KEY ->
  resolveLanguage (<[key := value]> storage) nav = resolveLanguage storage nav.
Proof.
  intros Hne. unfold resolveLanguage, resolveLanguageOver, getItem.
  by rewrite lookup_insert_ne.
Qed.

Lemma getInitialTheme_other_key pl storage key value :
  key <> THEME_STORAGE_KEY ->
  getInitialTheme pl (<[key := value]> storage) = getInitialTheme pl storage.
Proof.
  intros Hne. unfold getInitialTheme, getItem. by rewrite lookup_insert_ne.
Qed.

(** X19. [applyTheme] writes the theme in both places: the root carries
    it as [data-theme], also when the root is itself the toggle, and
    storage holds it, so that a theme that is ["light"] or ["dark"] is
    what [getInitialTheme] returns on the next load, whatever the system
    prefers.  Nothing else of the state changes, and the language that
    [resolveLanguage] returns is as before. *)
Theorem applyTheme_persists (btn : option (list nat)) (theme : string)
    (w : World) :
  let w' := applyTheme btn theme w in
  getAttribute "data-theme" (documentElement (document w')) = Some theme /\
  getItem (localStorage w') THEME_STORAGE_KEY = Some theme /\
  (theme = "light" \/ theme = "dark" ->
   forall prefersLight, getInitialTheme prefersLight (localStorage w') = theme) /\
  (forall nav,
     resolveLanguage (localStorage w') nav
     = resolveLanguage (localStorage w) nav) /\
  translationCache w' = translationCache w /\ requests w' = requests w /\
  console w' = console w /\ title (document w') = title (document w).
Proof.
  intros w'. split; [apply applyTheme_data_theme|].
  split; [apply lookup_insert_eq|].
  split.
  { intros Htheme pl. apply getInitialTheme_stored; [|done].
    apply lookup_insert_eq. }
  split; [|done].
  intros nav. unfold w'. rewrite applyTheme_stored.
  by apply resolveLanguage_other_key.
Qed.

Lemma loadTranslation_localStorage fuel :
  forall lang w result w',
    loadTranslation fuel lang w = Some (result, w') ->
    localStorage w' = localStorage w.
Proof.
  induction fuel as [|fuel IH]; intros lang w result w'; [done|].
  simpl. destruct (truthy (cached lang w)); [by intros [= <- <-]|].
  destruct (loadTranslation_try_cases lang w)
    as [(err & _ & ->)|(data & _ & ->)].
  - destruct (negb (String.eqb lang DEFAULT_LANG)).
    + intros Hrec. by rewrite (IH _ _ _ _ Hrec).
    + by intros [= <- <-].
  - by intros [= <- <-].
Qed.

(** X20. The two scripts share [localStorage] without touching each
    other's key: a language switch, whatever its outcome, leaves the
    theme that [getInitialTheme] returns as it was. *)
Theorem switchLanguage_keeps_theme (fuel : nat) (lang : string)
    (w w' : World) (result : Completion unit) (prefersLight : bool) :
  switchLanguage fuel lang w = Some (result, w') ->
  getInitialTheme prefersLight (localStorage w')
  = getInitialTheme prefersLight (localStorage w).
Proof.
  unfold switchLanguage.
  destruct (negb (includes SUPPORTED_LANGS lang)); [by intros [= <- <-]|].
  destruct (loadTranslation fuel lang _) as [[load w2]|] eqn:Hload; [|done].
  apply loadTranslation_localStorage in Hload. simpl in Hload.
  intros Hswitch.
  assert (Hstore : localStorage w' = localStorage w2).
  { destruct load as [translations|err]; [|by injection Hswitch as _ <-].
    rewrite applyTranslations_returns, updatePicker_returns in Hswitch.
    by injection Hswitch as _ <-. }
  rewrite Hstore, Hload. by apply getInitialTheme_other_key.
Qed.

Lemma labelled_attributeStep theme : attributeStep (labelled theme).
Proof. by intros tag attrs classes k1 k2. Qed.

(** X21. After [applyTheme], the toggle is labelled with the mode that a
    click would switch to: for the theme ["dark"] the text of its
    [data-aria-light] attribute, and for any other theme that of
    [data-aria-dark], with the English default when the attribute is
    missing or empty.  The rest of the button is as before. *)
Theorem applyTheme_label (p : list nat) (theme : string) (w : World)
    (btn : Element) :
  element_at (documentElement (document w)) p = Some btn ->
  exists btn',
    element_at (documentElement (document (applyTheme (Some p) theme w))) p
    = Some btn' /\
    getAttribute "aria-label" btn'
    = Some (if String.eqb theme "dark"
            then or_else (getAttribute "data-aria-light" btn)
                   "Switch to light mode"
            else or_else (getAttribute "data-aria-dark" btn)
                   "Switch to dark mode") /\
    (getAttribute "data-aria-light" btn = Some EmptyString ->
     theme = "dark" ->
     getAttribute "aria-label" btn' = Some "Switch to light mode") /\
    (forall name, name <> "aria-label" -> name <> "data-theme" ->
       getAttribute name btn' = getAttribute name btn) /\
    tagName btn' = tagName btn /\ classList btn' = classList btn.
Proof.
  intros Hbtn. unfold applyTheme.
  cbn [document documentElement with_root with_document].
  set (root1 := setAttribute "data-theme" theme _).
  assert (Hbtn1 : exists btn1,
    element_at root1 p = Some btn1 /\
    (forall name, name <> "data-theme" ->
       getAttribute name btn1 = getAttribute name btn) /\
    tagName btn1 = tagName btn /\ classList btn1 = classList btn).
  { unfold root1. destruct p as [|i p].
    - injection Hbtn as <-. eexists. split; [done|]. split; [|done].
      intros name Hname. by apply setAttribute_keeps.
    - rewrite element_at_attributeStep by apply setAttribute_attributeStep.
      by exists btn. }
  destruct Hbtn1 as (btn1 & Hbtn1 & Hattrs & Htag & Hclasses).
  exists (labelled theme btn1).
  split; [by apply element_at_update_at_here|].
  assert (Hlabel : getAttribute "aria-label" (labelled theme btn1)
    = Some (if String.eqb theme "dark"
            then or_else (getAttribute "data-aria-light" btn)
                   "Switch to light mode"
            else or_else (getAttribute "data-aria-dark" btn)
                   "Switch to dark mode")).
  { unfold labelled. rewrite getAttribute_setAttribute.
    destruct (decide _); [|done]. f_equal. unfold themeLabel. simpl.
    rewrite !Hattrs by done. by destruct (String.eqb theme "dark"). }
  split; [exact Hlabel|]. split.
  { intros Hempty ->. by rewrite Hlabel, Hempty. }
  split; [|done].
  intros name Hlabel' Htheme. rewrite labelled_keeps by done.
  by apply Hattrs.
Qed.

Lemma classList_add_keeps name token :
  keepsAttribute name (classList_add token).
Proof.
  intros el. unfold classList_add. by destruct (bool_decide _).
Qed.

(** X22. A click on the toggle switches to ["light"] when the root says
    ["dark"] or says nothing, and to ["dark"] from anything else, and
    what it switches to is on the root, in storage, and what
    [getInitialTheme] returns on the next load. *)
Theorem themeToggle_click_flips (p : list nat) (w : World) :
  let current := getAttribute "data-theme" (documentElement (document w)) in
  let w' := themeToggle_click p w in
  exists next,
    (next = "light" /\ (current = Some "dark" \/ current = None) \/
     next = "dark" /\ current <> Some "dark" /\ current <> None) /\
    getAttribute "data-theme" (documentElement (document w')) = Some next /\
    getItem (localStorage w') THEME_STORAGE_KEY = Some next /\
    forall prefersLight, getInitialTheme prefersLight (localStorage w') = next.
Proof.
  intros current w'. unfold w', themeToggle_click. fold current.
  set (next := if String.eqb (default "dark" current) "dark"
               then "light" else "dark").
  assert (Hnext : next = "light" /\ (current = Some "dark" \/ current = None) \/
                  next = "dark" /\ current <> Some "dark" /\ current <> None).
  { unfold next. destruct current as [c|]; simpl.
    - destruct (String.eqb c "dark") eqn:Hc.
      + apply String.eqb_eq in Hc as ->. left. split; [done|by left].
      + apply String.eqb_neq in Hc. right. split; [done|]. split; [|done].
        congruence.
    - left. split; [done|by right]. }
  exists next. split; [exact Hnext|].
  split; [apply applyTheme_data_theme|].
  split; [apply lookup_insert_eq|].
  intros pl. apply getInitialTheme_stored; [apply lookup_insert_eq|].
  destruct Hnext as [[-> _]|[-> _]]; [by left|by right].
Qed.

Lemma setAttribute_update_at name value f p :
  (forall el, setAttribute name value (f el) = f (setAttribute name value el)) ->
  forall root,
    setAttribute name value (update_at f root p)
    = update_at f (setAttribute name value root) p.
Proof.
  intros Hcomm [tag attrs classes children]. destruct p as [|i p].
  - by rewrite !update_at_nil.
  - unfold setAttribute at 2. cbn [tagName attributes classList childNodes].
    rewrite !update_at_cons. by destruct (children !! i) as [[s|k]|].
Qed.

Lemma setAttribute_over name value value' e :
  setAttribute name value (setAttribute name value' e)
  = setAttribute name value e.
Proof. unfold setAttribute. simpl. by rewrite insert_insert_eq. Qed.

Lemma update_at_ext_at f g p :
  forall root el,
    element_at root p = Some el -> f el = g el ->
    update_at f root p = update_at g root p.
Proof.
  induction p as [|i p IH]; intros [tag attrs classes children] el.
  - by intros [= <-].
  - rewrite element_at_cons, !update_at_cons.
    destruct (children !! i) as [[s|k]|]; try done.
    intros Hel Hfg. by rewrite (IH k el Hel Hfg).
Qed.

Lemma filter_snoc_absent (token : string) (classes : list string) :
  token ∉ classes ->
  filter (fun c => c ≠ token) (classes ++ [token]) = classes.
Proof.
  induction classes as [|c classes IH]; intros Hout.
  - simpl. by rewrite filter_cons_False, filter_nil by (by intros ?).
  - apply not_elem_of_cons in Hout as [Hne Hout]. simpl.
    rewrite filter_cons_True by done. by rewrite IH.
Qed.

Lemma click_cycle theme btn :
  "theme-toggle--animating" ∉ classList btn ->
  classList_remove "theme-toggle--animating"
    (labelled (if String.eqb theme "dark" then "light" else "dark")
       (classList_add "theme-toggle--animating" (labelled theme btn)))
  = labelled (if String.eqb theme "dark" then "light" else "dark") btn.
Proof.
  intros Hout. destruct btn as [tag attrs classes children].
  unfold classList_add, labelled at 3. cbn [classList setAttribute].
  rewrite bool_decide_eq_false_2 by done.
  unfold classList_remove, labelled, setAttribute, themeLabel, getAttribute.
  cbn [tagName attributes classList childNodes mbind option_bind].
  rewrite !lookup_insert_ne by done.
  by rewrite insert_insert_eq, filter_snoc_absent.
Qed.

Lemma click_applyTheme p theme w btn :
  element_at (documentElement (document w)) p = Some btn ->
  "theme-toggle--animating" ∉ classList btn ->
  themeToggle_transitionend p
    (themeToggle_click p (applyTheme (Some p) theme w))
  = applyTheme (Some p) (if String.eqb theme "dark" then "light" else "dark") w.
Proof.
  intros Hbtn Hout. unfold themeToggle_transitionend, themeToggle_click.
  rewrite applyTheme_data_theme. cbn [default from_option].
  set (next := if String.eqb theme "dark" then "light" else "dark").
  unfold applyTheme, with_root, with_document, with_localStorage, setItem.
  cbn [localStorage navigator translationCache document network requests
       console documentElement title].
  rewrite insert_insert_eq. f_equal. f_equal.
  rewrite (setAttribute_update_at _ _ (classList_add _))
    by (intros el; unfold classList_add; cbn [classList setAttribute];
        by destruct (bool_decide _)).
  rewrite (setAttribute_update_at _ _ (labelled theme)).
  2:{ intros el. unfold labelled.
      rewrite themeLabel_setAttribute by done.
      by apply setAttribute_comm. }
  rewrite setAttribute_over, !update_at_twice.
  set (root1 := setAttribute "data-theme" next _).
  assert (Hbtn1 : exists btn1,
    element_at root1 p = Some btn1 /\
    "theme-toggle--animating" ∉ classList btn1).
  { unfold root1. destruct p as [|i p].
    - injection Hbtn as <-. by eexists.
    - rewrite element_at_attributeStep by apply setAttribute_attributeStep.
      by exists btn. }
  destruct Hbtn1 as (btn1 & Hbtn1 & Hout1).
  apply (update_at_ext_at _ _ _ _ btn1 Hbtn1).
  by apply click_cycle.
Qed.

(** X23. After [initThemeToggle], a click on the toggle followed by the
    end of its transition leaves the page as [applyTheme] for the other
    theme would have left it at start-up, and a second click brings
    back the page as it was after the first load: the root, the button
    with its classes and label, and storage. *)
Theorem themeToggle_click_twice (prefersLight : bool) (w w1 : World)
    (p : list nat) :
  initThemeToggle prefersLight w = (Some p, w1) ->
  (forall btn,
     element_at (documentElement (document w)) p = Some btn ->
     "theme-toggle--animating" ∉ classList btn) ->
  let click w := themeToggle_transitionend p (themeToggle_click p w) in
  let theme := getInitialTheme prefersLight (localStorage w) in
  click w1
  = applyTheme (Some p) (if String.eqb theme "dark" then "light" else "dark") w
  /\ click (click w1) = w1.
Proof.
  unfold initThemeToggle. intros [= Hp <-] Hout.
  set (theme := getInitialTheme prefersLight (localStorage w)).
  destruct (querySelector_matches _ _ _ Hp) as (btn & Hbtn & _).
  pose proof (Hout btn Hbtn) as Hout'. rewrite Hp. rewrite (click_applyTheme _ _ _ btn) by done.
  split; [done|].
  rewrite (click_applyTheme _ _ _ btn) by done.
  by destruct (getInitialTheme_cases prefersLight (localStorage w))
    as [Htheme|Htheme]; unfold theme; rewrite Htheme.
Qed.

End MoreFacts.

(** * The countdown page: properties *)

Lemma append_eq_nil (a b : string) :
  a +:+ b = EmptyString -> a = EmptyString /\ b = EmptyString.
Proof.
  destruct a as [|c a]; [by rewrite append_nil|].
  by rewrite append_cons.
Qed.

Lemma counted_nonempty n singular plural :
  counted n singular plural <> EmptyString.
Proof.
  unfold counted. intros Hempty.
  apply append_eq_nil in Hempty as [_ Hempty].
  by rewrite append_cons in Hempty.
Qed.

Lemma formatParts_general parts :
  3 <= length parts ->
  formatParts parts
  = join ", " (take (length parts - 1) parts) +:+ " e "
    +:+ join "," (drop (length parts - 1) parts).
Proof.
  destruct parts as [|a [|b [|c parts]]]; simpl; intros Hlen; try lia.
  reflexivity.
Qed.

Lemma formatParts_snoc init part :
  init <> [] ->
  formatParts (init ++ [part]) = join ", " init +:+ " e " +:+ part.
Proof.
  destruct init as [|a [|b init]]; [done|done|]. intros _.
  assert (Hlen : length ((a :: b :: init) ++ [part]) - 1
                 = length (a :: b :: init)).
  { rewrite length_app. simpl. lia. }
  rewrite formatParts_general by (rewrite length_app; simpl; lia).
  by rewrite Hlen, take_app_length, drop_app_length.
Qed.

(** X24. The countdown text names the days, hours and minutes that are
    not zero, in this order, and always the seconds, zero or not, at its
    end.  The parts before the seconds are joined by commas, and the
    seconds by ["e"]: the branch for two parts gives what the general
    formula gives.  So one day and nothing else reads ["1 dia e 0
    segundos"]. *)
Theorem updateCountdown_text (r : Remaining) :
  let part (n : nat) (singular plural : string) :=
    if 0 <? n then [counted n singular plural] else [] in
  let before :=
    part (days r) "dia" "dias" ++ part (hours r) "hora" "horas"
    ++ part (minutes r) "minuto" "minutos" in
  let secs := counted (seconds r) "segundo" "segundos" in
  countdownParts (days r) (hours r) (minutes r) (seconds r)
  = before ++ [secs] /\
  countdownText (updateCountdown (Some r))
  = (if bool_decide (before = []) then secs
     else join ", " before +:+ " e " +:+ secs) /\
  (forall a b, formatParts [a; b] = join ", " [a] +:+ " e " +:+ b) /\
  countdownText
    (updateCountdown
       (Some {| days := 1; hours := 0; minutes := 0; seconds := 0 |}))
  = "1 dia e 0 segundos".
Proof.
  intros part before secs.
  assert (Hparts : countdownParts (days r) (hours r) (minutes r) (seconds r)
                   = before ++ [secs]).
  { unfold countdownParts, before, part, secs.
    replace (0 <=? seconds r) with true by (symmetry; apply Nat.leb_le; lia).
    destruct (0 <? days r), (0 <? hours r), (0 <? minutes r); reflexivity. }
  split; [exact Hparts|]. split; [|split; reflexivity].
  cbn [updateCountdown countdownText]. rewrite Hparts.
  destruct (decide (before = [])) as [Hnil|Hcons].
  - by rewrite bool_decide_eq_true_2, Hnil.
  - rewrite bool_decide_eq_false_2 by done. by apply formatParts_snoc.
Qed.

(** X25. While the countdown runs its text is never empty, so that a
    click copies it, whole; once the target date has passed the text is
    empty and a click copies nothing. *)
Theorem copyCountdown_copies (r : Remaining) :
  countdownText (updateCountdown (Some r)) <> EmptyString /\
  copyCountdown (updateCountdown (Some r))
  = Some (countdownText (updateCountdown (Some r))) /\
  copyCountdown (updateCountdown None) = None.
Proof.
  assert (Hne : countdownText (updateCountdown (Some r)) <> EmptyString).
  { cbn [updateCountdown countdownText]. unfold countdownParts.
    replace (0 <=? seconds r) with true by (symmetry; apply Nat.leb_le; lia).
    set (before := if 0 <? minutes r then _ else _).
    destruct before as [|a before].
    - apply counted_nonempty.
    - rewrite formatParts_snoc by done. intros Hempty.
      apply append_eq_nil in Hempty as [_ Hempty].
      by rewrite append_cons in Hempty. }
  split; [exact Hne|]. split; [|reflexivity].
  unfold copyCountdown, truthy_string.
  by rewrite (proj2 (String.eqb_neq _ _) Hne).
Qed.

(** * The typing effect: properties *)

Lemma textContent_textNodes tag attrs classes s :
  textContent (mkElement tag attrs classes (textNodes s)) = s.
Proof.
  unfold textNodes. destruct (String.eqb s EmptyString) eqn:Hs; [|done].
  by apply String.eqb_eq in Hs as ->.
Qed.

Lemma substring_empty text : substring 0 0 text = EmptyString.
Proof. by destruct text. Qed.

Lemma substring_succ text :
  forall n c,
    String.get n text = Some c ->
    substring 0 (S n) text = substring 0 n text +:+ String c EmptyString.
Proof.
  induction text as [|a text IH]; intros n c; [done|].
  destruct n as [|n]; simpl.
  - intros [= <-]. by rewrite substring_empty.
  - intros Hget. rewrite (IH n c Hget).
    change (match text with
            | EmptyString => EmptyString
            | String _ _ => EmptyString
            end) with (substring 0 0 text).
    by rewrite append_cons.
Qed.

Lemma get_in_range text :
  forall n, n < String.length text -> exists c, String.get n text = Some c.
Proof.
  induction text as [|a text IH]; intros n; simpl; [lia|].
  destruct n as [|n]; [by eexists|]. intros Hn. apply IH. lia.
Qed.

Lemma substring_all text : substring 0 (String.length text) text = text.
Proof. induction text as [|a text IH]; [done|]. simpl. by rewrite IH. Qed.

Lemma classList_remove_add token e :
  classList_remove token (classList_add token e) = classList_remove token e.
Proof.
  unfold classList_add. destruct (bool_decide _); [done|].
  unfold classList_remove. cbn [tagName attributes classList childNodes].
  rewrite filter_app, filter_cons_False by (by intros ?).
  by rewrite filter_nil, app_nil_r.
Qed.

Lemma typedHero_eq text n hero :
  typedHero text n hero
  = mkElement (tagName hero) (<["aria-label" := text]> (attributes hero))
      (if bool_decide (TYPING_CURSOR_CLASS ∈ classList hero)
       then classList hero else classList hero ++ [TYPING_CURSOR_CLASS])
      (textNodes (substring 0 n text)).
Proof.
  unfold typedHero, classList_add, set_textContent, setAttribute.
  cbn [tagName attributes classList childNodes].
  by destruct (bool_decide _).
Qed.

Lemma typedHero_step text n c hero :
  String.get n text = Some c ->
  set_textContent
    (textContent (typedHero text n hero) +:+ charAt text n)
    (typedHero text n hero)
  = typedHero text (S n) hero.
Proof.
  intros Hget. rewrite !typedHero_eq, textContent_textNodes.
  unfold charAt. rewrite Hget, (substring_succ _ _ _ Hget). done.
Qed.

Lemma typedHero_shown text hero :
  classList_remove TYPING_CURSOR_CLASS
    (typedHero text (String.length text) hero)
  = shownHero text hero.
Proof.
  unfold typedHero, shownHero.
  by rewrite classList_remove_add, substring_all.
Qed.

Lemma childPaths_head_insert sel ks :
  forall n i p,
    head (childPaths (querySelectorAll sel) n ks) = Some (i :: p) ->
    n <= i /\
    exists k,
      ks !! (i - n) = Some (Sub k) /\
      head (querySelectorAll sel k) = Some p /\
      forall k',
        head (querySelectorAll sel k') = Some p ->
        head (childPaths (querySelectorAll sel) n (<[i - n := Sub k']> ks))
        = Some (i :: p).
Proof.
  induction ks as [|[s|k0] ks IH]; intros n i p; simpl; [done| |].
  - intros Hhead. destruct (IH (S n) i p Hhead) as (Hle & k & Hk & Hp & Hins).
    split; [lia|]. exists k.
    replace (i - n) with (S (i - S n)) by lia. by repeat split.
  - destruct (querySelectorAll sel k0) as [|q qs] eqn:Hk0; simpl.
    + intros Hhead.
      destruct (IH (S n) i p Hhead) as (Hle & k & Hk & Hp & Hins).
      split; [lia|]. exists k.
      replace (i - n) with (S (i - S n)) by lia. simpl. rewrite Hk0.
      by repeat split.
    + intros [= <- <-]. split; [lia|]. exists k0.
      rewrite Nat.sub_diag. simpl. rewrite Hk0. split; [done|].
      split; [done|]. intros k' Hk'.
      by destruct (querySelectorAll sel k') as [|q' qs']; simplify_eq/=.
Qed.

(** An update of the first match that keeps it a match leaves it the
    first match, whatever it does to what is below. *)
Lemma querySelector_update_at_first sel f :
  attributeSelector sel -> (forall e, sel (f e) = sel e) ->
  forall p root,
    querySelector sel root = Some p ->
    querySelector sel (update_at f root p) = Some p.
Proof.
  intros Hsel Hsame. unfold querySelector.
  induction p as [|i p IH]; intros [tag attrs classes children];
    rewrite querySelectorAll_unfold.
  - destruct (sel (mkElement tag attrs classes children)) eqn:Hroot.
    + intros _. rewrite update_at_nil.
      destruct (f _) as [tag' attrs' classes' children'] eqn:Hf.
      rewrite querySelectorAll_unfold, <- Hf, Hsame, Hroot. done.
    + simpl. intros Hhead. apply head_Some_elem_of in Hhead.
      by destruct (childPaths_elem_of _ _ _ _ Hhead) as (? & ? & ? & ? & _).
  - destruct (sel (mkElement tag attrs classes children)) eqn:Hroot; [done|].
    intros Hhead. simpl in Hhead.
    destruct (childPaths_head_insert _ _ _ _ _ Hhead)
      as (_ & k & Hk & Hp & Hins).
    rewrite Nat.sub_0_r in Hk, Hins.
    rewrite update_at_cons, Hk, querySelectorAll_unfold.
    rewrite (Hsel tag attrs classes _ children), Hroot.
    apply Hins. by apply IH.
Qed.

Lemma typeHeroSubtitle_starts text s el :
  querySelector (has_class "hero-subtitle") (typingRoot s) = Some el ->
  text <> EmptyString ->
  typeHeroSubtitle false text s
  = typeChar el text 0 (update_at (typedHero text 0) (typingRoot s) el) /\
  typeHeroSubtitle true text s
  = {| typingRoot := update_at (shownHero text) (typingRoot s) el;
       _typingTimer := None |}.
Proof.
  intros Hq Htext. unfold typeHeroSubtitle, truthy_string. rewrite Hq.
  rewrite (proj2 (String.eqb_neq _ _) Htext). cbn [negb].
  rewrite !update_at_twice. split; [|done]. f_equal.
  apply update_at_ext. intros hero. unfold typedHero.
  by rewrite substring_empty.
Qed.

Lemma typeChar_types el text n root :
  n < String.length text ->
  typeChar el text n (update_at (typedHero text n) root el)
  = {| typingRoot := update_at (typedHero text (S n)) root el;
       _typingTimer := Some (TypeChar el text (S n)) |}.
Proof.
  intros Hn. unfold typeChar. rewrite (proj2 (Nat.ltb_lt _ _) Hn).
  f_equal. rewrite update_at_twice. apply update_at_ext. intros hero.
  destruct (get_in_range text n Hn) as [c Hget].
  by apply (typedHero_step _ _ c).
Qed.

Lemma typing_runs el text root :
  forall k,
    k < String.length text ->
    Nat.iter k fire (typeChar el text 0 (update_at (typedHero text 0) root el))
    = {| typingRoot := update_at (typedHero text (S k)) root el;
         _typingTimer := Some (TypeChar el text (S k)) |}.
Proof.
  induction k as [|k IH]; intros Hk.
  - by apply typeChar_types.
  - rewrite Nat.iter_succ, IH by lia. unfold fire.
    cbn [_typingTimer typingRoot]. by apply typeChar_types.
Qed.

Lemma typing_ends el text root :
  text <> EmptyString ->
  Nat.iter (S (String.length text)) fire
    (typeChar el text 0 (update_at (typedHero text 0) root el))
  = {| typingRoot := update_at (shownHero text) root el;
       _typingTimer := None |}.
Proof.
  intros Htext.
  assert (Hlen : exists n, String.length text = S n).
  { destruct text as [|a text]; [done|]. by eexists. }
  destruct Hlen as [n Hlen].
  rewrite Nat.iter_succ, Hlen, Nat.iter_succ, typing_runs by lia.
  rewrite <- Hlen. unfold fire at 2. cbn [_typingTimer typingRoot].
  unfold typeChar. rewrite Nat.ltb_irrefl. unfold fire.
  cbn [_typingTimer typingRoot].
  f_equal. rewrite update_at_twice. apply update_at_ext. intros hero.
  apply typedHero_shown.
Qed.

(** X26. [typeHeroSubtitle] does nothing at all for an empty text, and
    nothing on a page without a [.hero-subtitle] element: it returns
    before it cancels, so that a typing in progress goes on. *)
Theorem typeHeroSubtitle_noop (reducedMotion : bool) (text : string)
    (s : Typing) :
  querySelector (has_class "hero-subtitle") (typingRoot s) = None \/
  text = EmptyString ->
  typeHeroSubtitle reducedMotion text s = s /\
  fire (typeHeroSubtitle reducedMotion text s) = fire s.
Proof.
  intros Hnone.
  assert (Hsame : typeHeroSubtitle reducedMotion text s = s).
  { unfold typeHeroSubtitle. destruct Hnone as [-> | ->]; [done|].
    by destruct (querySelector _ _). }
  by rewrite Hsame.
Qed.


(** X28. The typing comes to an end: when as many timers have fired as
    the text has characters, and one more, nothing is pending any more
    and the page is exactly what [typeHeroSubtitle] makes of it at once
    under reduced motion, with the whole text shown and the cursor class
    gone. *)
Theorem typeHeroSubtitle_finishes (text : string) (s : Typing)
    (el : list nat) :
  querySelector (has_class "hero-subtitle") (typingRoot s) = Some el ->
  text <> EmptyString ->
  let s' :=
    Nat.iter (S (String.length text)) fire (typeHeroSubtitle false text s) in
  s' = typeHeroSubtitle true text s /\
  _typingTimer s' = None /\ fire s' = s' /\
  exists hero,
    element_at (typingRoot s') el = Some hero /\
    textContent hero = text /\
    has_class TYPING_CURSOR_CLASS hero = false /\
    getAttribute "aria-label" hero = Some text.
Proof.
  intros Hq Htext s'.
  destruct (typeHeroSubtitle_starts text s el Hq Htext) as [Hstart Hreduced].
  assert (Hend : s' = {| typingRoot := update_at (shownHero text) (typingRoot s) el;
                         _typingTimer := None |}).
  { unfold s'. rewrite Hstart. by apply typing_ends. }
  rewrite Hreduced, Hend. split; [done|]. split; [done|]. split; [done|].
  cbn [typingRoot].
  destruct (querySelector_matches _ _ _ Hq) as (hero & Hhero & _).
  exists (shownHero text hero).
  split; [by apply element_at_update_at_here|].
  unfold shownHero, classList_remove, set_textContent, setAttribute.
  cbn [tagName attributes classList childNodes].
  split; [apply textContent_textNodes|]. split.
  - unfold has_class. cbn [classList]. apply bool_decide_eq_false.
    rewrite list_elem_of_filter. by intros [Hne _].
  - unfold getAttribute. cbn [attributes]. apply lookup_insert_eq.
Qed.

Lemma has_class_typedHero token text n hero :
  token <> TYPING_CURSOR_CLASS ->
  has_class token (typedHero text n hero) = has_class token hero.
Proof.
  intros Hne. rewrite typedHero_eq. unfold has_class. cbn [classList].
  destruct (bool_decide (TYPING_CURSOR_CLASS ∈ classList hero)); [done|].
  apply bool_decide_ext. rewrite elem_of_app, list_elem_of_singleton.
  tauto.
Qed.

(** X29. A call while a text is being typed starts over from the page
    as it was: whatever has been typed of the first text, and its
    pending timer, leave no trace in what the call for the second text
    makes of the page. *)
Theorem typeHeroSubtitle_restarts (reducedMotion : bool)
    (text text' : string) (s : Typing) (el : list nat) (k : nat) :
  querySelector (has_class "hero-subtitle") (typingRoot s) = Some el ->
  k < String.length text -> text' <> EmptyString ->
  typeHeroSubtitle reducedMotion text'
    (Nat.iter k fire (typeHeroSubtitle false text s))
  = typeHeroSubtitle reducedMotion text' s.
Proof.
  intros Hq Hk Htext'.
  assert (Htext : text <> EmptyString) by (intros ->; simpl in Hk; lia).
  destruct (typeHeroSubtitle_starts text s el Hq Htext) as [-> _].
  rewrite typing_runs by done.
  set (typed := update_at (typedHero text (S k)) (typingRoot s) el).
  assert (Hq' : querySelector (has_class "hero-subtitle") typed = Some el).
  { apply querySelector_update_at_first;
      [apply has_class_attributeSelector| |done].
    intros hero. by apply has_class_typedHero. }
  destruct (typeHeroSubtitle_starts text' s el Hq Htext') as [Htype Hshow].
  destruct (typeHeroSubtitle_starts text'
              {| typingRoot := typed;
                 _typingTimer := Some (TypeChar el text (S k)) |} el Hq' Htext')
    as [Htype' Hshow'].
  cbn [typingRoot] in Htype', Hshow'. unfold typed in *.
  rewrite update_at_twice in Htype', Hshow'.
  destruct reducedMotion.
  - rewrite Hshow, Hshow'. f_equal. apply update_at_ext. intros hero.
    rewrite typedHero_eq. unfold shownHero, classList_remove, set_textContent,
      setAttribute. cbn [tagName attributes classList childNodes].
    rewrite insert_insert_eq. f_equal.
    destruct (bool_decide _); [done|].
    rewrite filter_app, filter_cons_False by (by intros ?).
    by rewrite filter_nil, app_nil_r.
  - rewrite Htype, Htype'. f_equal. apply update_at_ext. intros hero.
    rewrite !typedHero_eq. cbn [tagName attributes classList childNodes].
    rewrite insert_insert_eq. f_equal.
    destruct (bool_decide (TYPING_CURSOR_CLASS ∈ classList hero)) eqn:Hin.
    + by rewrite Hin.
    + rewrite bool_decide_eq_true_2; [done|].
      apply elem_of_app. right. by left.
Qed.

(** * The properties on concrete pages *)

(** C3 as it is stated does not hold.  On a site without a German bundle,
    the second call for ["de"] asks for it again: the failed load has left
    nothing under ["de"] in the cache. *)
Lemma loadTranslation_twice_fetches_again :
  exists b1 w1 b2 w2,
    loadTranslation (H := integerNumbers) 2 "de"
      (visit ∅ {[ "i18n/en.json" := heroBundle "Hello" ]}
         (heroPage "en" "Hello" "en"))
    = Some (Return b1, w1) /\
    requests w1 = ["i18n/de.json"; "i18n/en.json"] /\
    loadTranslation 2 "de" w1 = Some (Return b2, w2) /\
    requests w2 = ["i18n/de.json"; "i18n/en.json"; "i18n/de.json"] /\
    ~ (length (requests w2) <= 1).
Proof.
  eexists _, _, _, _. split; [vm_compute; reflexivity|].
  split; [reflexivity|]. split; [vm_compute; reflexivity|].
  split; [reflexivity|]. simpl. lia.
Qed.

(** The cache is tested for a truthy entry: a bundle file that holds
    [null] is stored and yet requested again by the next call. *)
Example loadTranslation_null_bundle_fetched_again :
  exists w1 w2,
    loadTranslation (H := integerNumbers) 1 "en"
      (visit ∅ {[ "i18n/en.json" := JNull ]} (heroPage "en" "Hello" "en"))
    = Some (Return JNull, w1) /\
    translationCache w1 !! "en" = Some JNull /\
    loadTranslation 1 "en" w1 = Some (Return JNull, w2) /\
    requests w2 = ["i18n/en.json"; "i18n/en.json"].
Proof.
  eexists _, _. split; [vm_compute; reflexivity|].
  split; [reflexivity|]. split; [vm_compute; reflexivity|reflexivity].
Qed.


(** The precedence, on the preference ["de"] and on the locales
    ["fr-FR"], ["de-AT"]. *)
Lemma resolveLanguage_precedence_witness :
  resolveLanguage {[ "lang" := "de" ]}
    {| languages := Some ["pt-BR"]; language := "pt-BR" |} = "de" /\
  resolveLanguage ∅
    {| languages := Some ["fr-FR"; "de-AT"]; language := "fr-FR" |} = "de".
Proof.
  split.
  - apply (proj1 (resolveLanguage_precedence {[ "lang" := "de" ]}
                    {| languages := Some ["pt-BR"]; language := "pt-BR" |})).
    + reflexivity.
    + apply includes_elem_of. reflexivity.
  - destruct (resolveLanguage_precedence ∅
                {| languages := Some ["fr-FR"; "de-AT"];
                   language := "fr-FR" |}) as (_ & Hscan & _).
    destruct Hscan as [Hfirst _]; [intros stored; discriminate|].
    apply (Hfirst ["fr-FR"] "de-AT" []); [reflexivity| | |].
    + intros b Hb. apply list_elem_of_singleton in Hb as ->. split.
      * apply includes_not_elem_of. reflexivity.
      * intros code Hcode Hrel. apply prefixMatches_related in Hrel.
        apply includes_elem_of in Hcode. revert Hcode Hrel.
        unfold SUPPORTED_LANGS, includes. simpl.
        destruct (String.eqb code "en") eqn:Hen;
          [apply String.eqb_eq in Hen as ->; discriminate|].
        destruct (String.eqb code "pt-BR") eqn:Hpt;
          [apply String.eqb_eq in Hpt as ->; discriminate|].
        destruct (String.eqb code "de") eqn:Hde;
          [apply String.eqb_eq in Hde as ->; discriminate|].
        discriminate.
    + apply includes_not_elem_of. reflexivity.
    + exists 2. split; [reflexivity|]. split.
      * apply prefixMatches_related. reflexivity.
      * intros j other Hj Hother Hrel. apply prefixMatches_related in Hrel.
        destruct j as [|[|j]]; [| |lia]; injection Hother as <-;
          discriminate.
Defined.

Lemma loadTranslation_cached_after_success_witness :
  exists w1,
    loadTranslation (H := integerNumbers) 1 "de"
      (visit ∅ {[ "i18n/de.json" := heroBundle "Hallo" ]}
         (heroPage "en" "Hello" "en"))
    = Some (Return (heroBundle "Hallo"), w1) /\
    translationCache w1 !! "de" = Some (heroBundle "Hallo") /\
    requests w1 = ["i18n/de.json"] /\
    loadTranslation 1 "de" w1 = Some (Return (heroBundle "Hallo"), w1).
Proof.
  destruct (loadTranslation_cached_after_success (H := integerNumbers) 0 "de"
              (visit ∅ {[ "i18n/de.json" := heroBundle "Hallo" ]}
                 (heroPage "en" "Hello" "en")) (heroBundle "Hallo"))
    as (w1 & Hload & Hcache & Hrequests & Hlater).
  - reflexivity.
  - eexists. split; [vm_compute; reflexivity|]. split; reflexivity.
  - exists w1. split; [exact Hload|]. split; [exact Hcache|].
    split; [exact Hrequests|]. apply Hlater; [reflexivity|exact Hcache].
Defined.

Lemma loadTranslation_falls_back_witness :
  exists w',
    loadTranslation (H := integerNumbers) 2 "de"
      (visit ∅ ∅ (heroPage "en" "Hello" "en"))
    = Some (Return (JObj ∅), w') /\
    document w' = heroPage "en" "Hello" "en".
Proof.
  destruct (loadTranslation_falls_back (H := integerNumbers) 0 "de"
              (visit ∅ ∅ (heroPage "en" "Hello" "en")))
    as (bundle & w' & Hload & Hdoc & _ & _ & Hfails).
  destruct Hfails as (err & _ & _ & Hboth & _).
  - reflexivity.
  - right. reflexivity.
  - destruct Hboth as [-> _].
    + discriminate.
    + reflexivity.
    + right. reflexivity.
    + exists w'. split; [exact Hload|exact Hdoc].
Defined.

Lemma loadTranslation_failure_not_cached_witness :
  exists bundle w',
    loadTranslation (H := integerNumbers) 2 "de"
      (visit ∅ {[ "i18n/en.json" := heroBundle "Hello" ]}
         (heroPage "en" "Hello" "en"))
    = Some (Return bundle, w') /\
    translationCache w' !! "de" = None.
Proof.
  destruct (loadTranslation_failure_not_cached (H := integerNumbers) 0 "de"
              (visit ∅ {[ "i18n/en.json" := heroBundle "Hello" ]}
                 (heroPage "en" "Hello" "en")))
    as (bundle & w' & Hload & _ & Habsent & _).
  - reflexivity.
  - right. reflexivity.
  - exists bundle, w'. split; [exact Hload|]. apply Habsent. reflexivity.
Defined.


Lemma switchLanguage_unsupported_witness :
  ("xx" ∉ SUPPORTED_LANGS) /\
  switchLanguage (H := integerNumbers) 2 "xx"
    (visit {[ "lang" := "de" ]} ∅ (heroPage "de" "Hallo" "de"))
  = Some (Return tt, visit {[ "lang" := "de" ]} ∅ (heroPage "de" "Hallo" "de")).
Proof.
  assert (Hxx : "xx" ∉ SUPPORTED_LANGS)
    by (apply includes_not_elem_of; reflexivity).
  split; [exact Hxx|].
  exact (switchLanguage_unsupported (H := integerNumbers) 2 "xx" _ Hxx).
Defined.



(** * The further properties on concrete pages *)

Lemma getNestedValue_segments_witness :
  getNestedValue (H := integerNumbers) (heroBundle "Olá") "hero"
  = optional_get (heroBundle "Olá") "hero" /\
  getNestedValue (H := integerNumbers) (heroBundle "Olá")
    ("hero" +:+ "." +:+ "subtitle")
  = getNestedValue (optional_get (heroBundle "Olá") "hero") "subtitle".
Proof.
  assert (Hno : forall a b, "hero" <> a +:+ "." +:+ b).
  { intros [|c1 [|c2 [|c3 [|c4 [|c5 a]]]]] b Heq; cbv in Heq;
      discriminate Heq. }
  destruct (getNestedValue_segments (H := integerNumbers)
              (heroBundle "Olá") "hero" Hno) as [Hkey Hrest].
  split; [exact Hkey|exact (Hrest "subtitle")].
Defined.

Lemma loadTranslation_keeps_witness :
  exists result w',
    loadTranslation (H := integerNumbers) 2 "de"
      (visit {[ "theme" := "dark" ]} {[ "i18n/en.json" := heroBundle "Hello" ]}
         (heroPage "en" "Hello" "en"))
    = Some (result, w') /\
    document w' = heroPage "en" "Hello" "en" /\
    localStorage w' = {[ "theme" := "dark" ]}.
Proof.
  assert (Hload : { rw | loadTranslation (H := integerNumbers) 2 "de"
      (visit {[ "theme" := "dark" ]} {[ "i18n/en.json" := heroBundle "Hello" ]}
         (heroPage "en" "Hello" "en")) = Some rw }).
  { eexists. vm_compute. reflexivity. }
  destruct Hload as [[result w'] Hload]. exists result, w'.
  split; [exact Hload|].
  destruct (loadTranslation_keeps (H := integerNumbers) _ _ _ _ _ Hload)
    as (_ & _ & _ & Hdoc & Hstore & _).
  split; [exact Hdoc|exact Hstore].
Defined.

Lemma switchLanguage_then_resolve_witness :
  exists w',
    switchLanguage (H := integerNumbers) 2 "de"
      (visit ∅ {[ "i18n/de.json" := heroBundle "Hallo" ]}
         (heroPage "en" "Hello" "en"))
    = Some (Return tt, w') /\
    resolveLanguage (localStorage w')
      {| languages := Some ["pt-BR"]; language := "pt-BR" |} = "de".
Proof.
  destruct (switchLanguage_then_resolve (H := integerNumbers) 0 "de"
              (visit ∅ {[ "i18n/de.json" := heroBundle "Hallo" ]}
                 (heroPage "en" "Hello" "en"))) as (w' & Hswitch & Hresolve).
  - apply includes_elem_of. reflexivity.
  - exists w'. split; [exact Hswitch|apply Hresolve].
Defined.


Lemma updatePicker_rebuilds_witness :
  exists doc1,
    updatePicker "de"
      {| documentElement := mkElement "html" ∅ [] [Sub (desktopPicker "en")];
         title := "William" |}
    = Return doc1 /\
    element_at (documentElement doc1) [0] = Some (desktopPicker "de").
Proof.
  apply (updatePicker_rebuilds "en" "de"
           {| documentElement :=
                mkElement "html" ∅ [] [Sub (desktopPicker "en")];
              title := "William" |} 0 []).
  reflexivity.
Defined.


Lemma initI18n_stored_witness :
  let w0 :=
    visit (H := integerNumbers) {[ "lang" := "de" ]}
      {[ "i18n/de.json" := heroBundle "Hallo" ]}
      (sitePage [Sub themeToggleButton] "Hi") in
  initI18n 2 w0 = switchLanguage 2 "de" (snd (createLanguagePicker w0)).
Proof.
  intros w0.
  apply (initI18n_stored (H := integerNumbers) 2 "de" w0).
  - reflexivity.
  - apply includes_elem_of. reflexivity.
  - vm_compute. reflexivity.
Defined.

Lemma createLanguagePicker_desktop_witness :
  let w0 :=
    visit (H := integerNumbers) ∅ ∅
      (sitePage [Text " "; Sub themeToggleButton] "Hi") in
  exists w1 toggle,
    createLanguagePicker w0 = (Return tt, w1) /\
    element_at (documentElement (document w1)) [0; 0; 1]
    = Some (desktopPicker "en") /\
    element_at (documentElement (document w1)) [0; 0; 2] = Some toggle /\
    has_class "theme-toggle" toggle = true.
Proof.
  intros w0.
  apply (createLanguagePicker_desktop (H := integerNumbers) w0 [0; 0]
           (mkElement "div" ∅ ["nav-actions"]
              [Text " "; Sub themeToggleButton]) 1).
  - vm_compute. reflexivity.
  - reflexivity.
  - vm_compute. reflexivity.
Defined.

Lemma createLanguagePicker_mobile_witness :
  let w0 :=
    visit (H := integerNumbers) ∅ ∅
      (sitePage [Text " "; Sub themeToggleButton] "Hi") in
  exists mobileNav,
    element_at
      (documentElement (document (snd (createLanguagePicker w0)))) [0; 1]
    = Some mobileNav /\
    has_class "nav-mobile" mobileNav = true /\
    last (childNodes mobileNav) = Some (Sub (desktopPicker "en")).
Proof.
  intros w0.
  apply (createLanguagePicker_mobile (H := integerNumbers) w0
           (snd (createLanguagePicker w0)) [0; 1]).
  - vm_compute. reflexivity.
  - vm_compute. reflexivity.
Defined.

Lemma createLanguagePicker_throws_witness :
  let w0 :=
    visit (H := integerNumbers) ∅ ∅
      (sitePage [Sub (mkElement "span" ∅ [] [Sub themeToggleButton])] "Hi") in
  exists err,
    createLanguagePicker w0 = (Throw err, w0) /\
    initI18n 2 w0 = Some (Throw err, w0).
Proof.
  intros w0.
  destruct (createLanguagePicker_throws (H := integerNumbers) w0)
    as [Hiff Hstate].
  destruct (proj2 Hiff) as [err Herr].
  { exists [0; 0],
      (mkElement "div" ∅ ["nav-actions"]
         [Sub (mkElement "span" ∅ [] [Sub themeToggleButton])]), 0, 0, [].
    split; [vm_compute; reflexivity|]. split; [reflexivity|].
    vm_compute. reflexivity. }
  destruct (Hstate err Herr) as [Hsame Hinit].
  exists err. split; [|apply Hinit].
  rewrite <- Hsame at 2. rewrite <- Herr. by destruct (createLanguagePicker w0).
Defined.

Lemma switchLanguage_keeps_theme_witness :
  exists w',
    switchLanguage (H := integerNumbers) 2 "de"
      (visit {[ "theme" := "light" ]} ∅ (heroPage "en" "Hello" "en"))
    = Some (Return tt, w') /\
    getInitialTheme false (localStorage w') = "light".
Proof.
  assert (Hswitch : { w' | switchLanguage (H := integerNumbers) 2 "de"
      (visit {[ "theme" := "light" ]} ∅ (heroPage "en" "Hello" "en"))
      = Some (Return tt, w') }).
  { eexists. vm_compute. reflexivity. }
  destruct Hswitch as [w' Hswitch]. exists w'. split; [exact Hswitch|].
  rewrite (switchLanguage_keeps_theme (H := integerNumbers) _ _ _ _ _ false
             Hswitch).
  reflexivity.
Defined.

Lemma applyTheme_label_witness :
  let w0 :=
    visit (H := integerNumbers) ∅ ∅ (sitePage [Sub themeToggleButton] "Hi") in
  (exists btn',
     element_at (documentElement (document (applyTheme (Some [0; 0; 0]) "dark" w0)))
       [0; 0; 0] = Some btn' /\
     getAttribute "aria-label" btn' = Some "Light mode") /\
  (exists btn',
     element_at (documentElement (document (applyTheme (Some [0; 0; 0]) "light" w0)))
       [0; 0; 0] = Some btn' /\
     getAttribute "aria-label" btn' = Some "Switch to dark mode").
Proof.
  intros w0. split.
  - destruct (applyTheme_label (H := integerNumbers) [0; 0; 0] "dark" w0
                themeToggleButton eq_refl) as (btn' & Hbtn & Hlabel & _).
    exists btn'. split; [exact Hbtn|exact Hlabel].
  - destruct (applyTheme_label (H := integerNumbers) [0; 0; 0] "light" w0
                themeToggleButton eq_refl) as (btn' & Hbtn & Hlabel & _).
    exists btn'. split; [exact Hbtn|exact Hlabel].
Defined.

Lemma themeToggle_click_twice_witness :
  let w0 :=
    visit (H := integerNumbers) ∅ ∅ (sitePage [Sub themeToggleButton] "Hi") in
  let w1 := snd (initThemeToggle false w0) in
  let click w :=
    themeToggle_transitionend [0; 0; 0] (themeToggle_click [0; 0; 0] w) in
  click w1 = applyTheme (Some [0; 0; 0]) "light" w0 /\ click (click w1) = w1.
Proof.
  intros w0 w1 click.
  apply (themeToggle_click_twice (H := integerNumbers) false w0 w1 [0; 0; 0]).
  - vm_compute. reflexivity.
  - intros btn [= <-]. apply includes_not_elem_of. reflexivity.
Defined.

Lemma typeHeroSubtitle_noop_witness :
  let s0 :=
    {| typingRoot := documentElement (sitePage [] "Hi");
       _typingTimer := None |} in
  let s1 := typeHeroSubtitle false "Hello" s0 in
  typeHeroSubtitle false EmptyString s1 = s1 /\
  _typingTimer s1 = Some (TypeChar [0; 2] "Hello" 1).
Proof.
  intros s0 s1. split; [|reflexivity].
  apply (typeHeroSubtitle_noop false EmptyString s1). by right.
Defined.


Lemma typeHeroSubtitle_finishes_witness :
  let s0 :=
    {| typingRoot := documentElement (sitePage [] "Hi");
       _typingTimer := None |} in
  Nat.iter 6 fire (typeHeroSubtitle false "Hello" s0)
  = typeHeroSubtitle true "Hello" s0.
Proof.
  intros s0.
  apply (typeHeroSubtitle_finishes "Hello" s0 [0; 2]).
  - vm_compute. reflexivity.
  - discriminate.
Defined.

Lemma typeHeroSubtitle_restarts_witness :
  let s0 :=
    {| typingRoot := documentElement (sitePage [] "Hi");
       _typingTimer := None |} in
  typeHeroSubtitle false "Olá"
    (Nat.iter 2 fire (typeHeroSubtitle false "Hello" s0))
  = typeHeroSubtitle false "Olá" s0.
Proof.
  intros s0.
  apply (typeHeroSubtitle_restarts false "Hello" "Olá" s0 [0; 2] 2).
  - vm_compute. reflexivity.
  - simpl. lia.
  - discriminate.
Defined.
